(** * zfs.resource: query validation, result nesting and destroy

    A shallow embedding of [plugins/zfs/resource_crud.py] and
    [plugins/zfs/destroy_impl.py] of the middleware, with the properties
    of the specification stated over it.

    Python strings are modelled by [string] (code points below 256, which
    [String.compare] orders the way Python orders [str]); Python
    dictionaries, which keep insertion order, by association lists updated
    in place; exceptions by an explicit error type; the storage engine by
    an oracle over the history of the calls made so far, every call being
    recorded in a log. *)

From Stdlib Require Import String Ascii List Bool Arith NArith Lia.
From Stdlib Require Import Sorting.Sorted Sorting.Permutation.
Import ListNotations.

Local Open Scope string_scope.
Local Open Scope list_scope.

(** ** Python strings *)

Module PyStr.

(** [c in s] for a one-character [c]. *)
Fixpoint contains (c : ascii) (s : string) : bool :=
  match s with
  | EmptyString => false
  | String a s' => Ascii.eqb a c || contains c s'
  end.

(** [s.split(c)] for a one-character separator. *)
Fixpoint split (c : ascii) (s : string) : list string :=
  match s with
  | EmptyString => [EmptyString]
  | String a s' =>
      if Ascii.eqb a c then EmptyString :: split c s'
      else match split c s' with
           | [] => [String a EmptyString]
           | h :: t => String a h :: t
           end
  end.

(** [sep.join(l)]. *)
Fixpoint join (sep : string) (l : list string) : string :=
  match l with
  | [] => EmptyString
  | [x] => x
  | x :: rest => x ++ sep ++ join sep rest
  end.

(** [s[0]], which raises [IndexError] on the empty string. *)
Definition first (s : string) : option ascii :=
  match s with
  | EmptyString => None
  | String a _ => Some a
  end.

(** [s[-1]]. *)
Fixpoint last (s : string) : option ascii :=
  match s with
  | EmptyString => None
  | String a EmptyString => Some a
  | String _ s' => last s'
  end.

(** [c.isspace()] on code points below 256. *)
Definition isspace (c : ascii) : bool :=
  let n := nat_of_ascii c in
  ((9 <=? n)%nat && (n <=? 13)%nat) || ((28 <=? n)%nat && (n <=? 32)%nat)
  || (n =? 133)%nat || (n =? 160)%nat.

(** [not s.strip()]: nothing is left once the white space is trimmed. *)
Fixpoint blank (s : string) : bool :=
  match s with
  | EmptyString => true
  | String a s' => isspace a && blank s'
  end.

(** [x in l] for a list of strings. *)
Definition mem (x : string) (l : list string) : bool :=
  existsb (String.eqb x) l.

End PyStr.

(** ** [pathlib.PurePosixPath] *)

Module Pathlib.

(** A parsed path: its root (empty, [/] or [//]) and its components. *)
Record path := Path { root : string; tail : list string }.

(** [posixpath.splitroot], without the drive, which is always empty. *)
Definition splitroot (p : string) : string * string :=
  match p with
  | String "/" (String "/" (String "/" _) as r) => ("/", r)
  | String "/" (String "/" r) => ("//", r)
  | String "/" r => ("/", r)
  | _ => ("", p)
  end.

Definition keep (x : string) : bool :=
  negb (String.eqb x "") && negb (String.eqb x ".").

(** Empty and [.] components are dropped when a path is parsed. *)
Definition parse (p : string) : path :=
  let (r, rel) := splitroot p in
  Path r (filter keep (PyStr.split "/" rel)).

(** [str(p)] and [p.as_posix()]. *)
Definition as_posix (p : path) : string :=
  match root p, tail p with
  | EmptyString, [] => "."
  | r, t => r ++ PyStr.join "/" t
  end.

Fixpoint prefixb (l1 l2 : list string) : bool :=
  match l1, l2 with
  | [], _ => true
  | x :: l1', y :: l2' => String.eqb x y && prefixb l1' l2'
  | _ :: _, [] => false
  end.

(** [self.is_relative_to(other)]. *)
Definition is_relative_to (self other : path) : bool :=
  String.eqb (root self) (root other) && prefixb (tail other) (tail self).

(** The proper prefixes of a list, longest first. *)
Fixpoint proper_prefixes (l : list string) : list (list string) :=
  match l with
  | [] => []
  | x :: l' => map (cons x) (proper_prefixes l') ++ [[]]
  end.

(** [p.parents], nearest first. *)
Definition parents (p : path) : list path :=
  map (Path (root p)) (proper_prefixes (tail p)).

End Pathlib.

(** ** Dictionaries *)

Section Dict.

Context {V : Type}.

Definition dict := list (string * V).

(** [d[k] = v]: an existing key keeps its place. *)
Fixpoint dict_set (k : string) (v : V) (d : dict) : dict :=
  match d with
  | [] => [(k, v)]
  | (k', v') :: d' =>
      if String.eqb k' k then (k, v) :: d' else (k', v') :: dict_set k v d'
  end.

Fixpoint dict_get (k : string) (d : dict) : option V :=
  match d with
  | [] => None
  | (k', v') :: d' => if String.eqb k' k then Some v' else dict_get k d'
  end.

Definition dict_keys (d : dict) : list string := map fst d.

End Dict.

Arguments dict : clear implicits.

(** ** Exceptions *)

Inductive ZFSError := EZFS_NOENT | EZFS_BUSY | EZFS_OTHER (code : nat).

Inductive exn :=
| ValidationError (schema msg : string)
| IndexError
| ValueError
| ZFSException (code : ZFSError) (msg : string)
| Exception (msg : string).

(** [str(e)] for the exceptions the executor turns into result entries. *)
Definition exn_str (e : exn) : string :=
  match e with
  | ValidationError _ msg => msg
  | IndexError => "string index out of range"
  | ValueError => "not enough values to unpack"
  | ZFSException _ msg => msg
  | Exception msg => msg
  end.

Inductive result (A : Type) :=
| Ok (a : A)
| Raise (e : exn).

Arguments Ok {A} a.
Arguments Raise {A} e.

Definition bind {A B} (m : result A) (f : A -> result B) : result B :=
  match m with
  | Ok a => f a
  | Raise e => Raise e
  end.

Notation "x <- m ;; k" := (bind m (fun x => k))
  (at level 61, m at next level, right associativity).
Notation "' p <- m ;; k" := (bind m (fun p => k))
  (at level 61, p pattern, m at next level, right associativity).

Definition is_ZFSError_NOENT (c : ZFSError) : bool :=
  match c with EZFS_NOENT => true | _ => false end.

Definition is_ZFSError_BUSY (c : ZFSError) : bool :=
  match c with EZFS_BUSY => true | _ => false end.

(** ** [group_paths_by_parents] *)

Definition relative_subpath (path sp : string) : bool :=
  Pathlib.is_relative_to (Pathlib.parse sp) (Pathlib.parse path)
  && negb (String.eqb sp path).

(** The body of the outer loop: [subpaths] is what the inner loop collects. *)
Definition group_step (paths : list string) (root_dict : dict (list string))
    (path : string) : dict (list string) :=
  match filter (relative_subpath path) paths with
  | [] => root_dict
  | subpaths => dict_set path subpaths root_dict
  end.

Definition group_paths_by_parents (paths : list string) : dict (list string) :=
  fold_left (group_step paths) paths [].

(** ** The destroy request and its plan *)

Record DestroyArgs := {
  paths : list string;
  recursive : bool;
  force : bool;
  defer : bool;
  allow_destroy_internal_paths : bool
}.

Record script_arguments := {
  sa_recursive : bool;
  sa_target : string;
  sa_defer : bool;
  sa_pattern : option string
}.

(** An entry of [snapshots["channel_programs"]]. *)
Record channel_args := {
  ca_path : string;
  ca_pool_name : string;
  ca_readonly : bool;
  ca_script_arguments_dict : script_arguments
}.

Record snapshots_plan := {
  singular : list string;
  channel_programs : list channel_args
}.

(** The request once [validate_and_parse_destroy_args] has added its two
    keys to it. *)
Record DestroyPlan := {
  data : DestroyArgs;
  fs_or_vols : list string;
  snapshots : snapshots_plan
}.

Inductive kind := FsOrVol | Snapshot.

Definition schema : string := "zfs.resource.destroy".

Definition overlap_err : string :=
  "Overlapping paths are not allowed when recursive is true".

Section Validation.

(** [utils.has_internal_path] and the builtin [repr] on strings are
    taken as they come. *)
Variable has_internal_path : string -> bool.
Variable repr : string -> string.

(** The body of the first loop of [validate_and_parse_destroy_args]:
    the list the path is appended to, or the exception raised. *)
Definition classify (d : DestroyArgs) (path : string) : result kind :=
  match PyStr.first path, PyStr.last path with
  | Some c0, Some cl =>
      if Ascii.eqb c0 "/" || Ascii.eqb cl "/" then
        Raise (ValidationError schema
                 (repr path ++ " may not begin or end with / character"))
      else if PyStr.contains "#" path then
        Raise (ValidationError schema
                 "Destroying bookmarks is unsupported at this time")
      else if negb (PyStr.contains "/" path) then
        if PyStr.contains "@" path && recursive d then
          Raise (ValidationError schema
                   "Recursively destroying snapshots at root of zpool is not allowed")
        else
          Raise (ValidationError schema
                   "Destroying zpools is not allowed. Use zfs.resource.destroy_pools")
      else if negb (allow_destroy_internal_paths d) && has_internal_path path then
        Raise (ValidationError schema
                 (repr path ++ " is a protected path and may not be destroyed"))
      else if PyStr.contains "@" path then
        let components := PyStr.split "@" path in
        if (2 <? length components)%nat then
          Raise (ValidationError schema
                   ("Only one @ character is allowed in " ++ repr path))
        else if PyStr.blank (hd "" components) then
          Raise (ValidationError schema
                   ("Missing filesystem or volume name in " ++ repr path))
        else if PyStr.blank (last components "") then
          Raise (ValidationError schema
                   ("Missing snapshot name in " ++ repr path))
        else Ok Snapshot
      else Ok FsOrVol
  | _, _ => Raise IndexError
  end.

Fixpoint classify_paths (d : DestroyArgs) (ps fs_or_vols snapshots_temp : list string)
  : result (list string * list string) :=
  match ps with
  | [] => Ok (fs_or_vols, snapshots_temp)
  | path :: rest =>
      k <- classify d path ;;
      match k with
      | Snapshot => classify_paths d rest fs_or_vols (snapshots_temp ++ [path])
      | FsOrVol => classify_paths d rest (fs_or_vols ++ [path]) snapshots_temp
      end
  end.

(** The [if data["recursive"]] block: the first item of the grouping
    raises. *)
Definition check_overlap (d : DestroyArgs) (fs_or_vols : list string) : result unit :=
  if recursive d then
    match group_paths_by_parents fs_or_vols with
    | (k, v) :: _ =>
        Raise (ValidationError schema
                 (overlap_err ++ " (" ++ k ++ " overlaps with "
                    ++ PyStr.join ", " v ++ ")"))
    | [] => Ok tt
    end
  else Ok tt.

(** The second loop. [path] is the variable of the first loop, which
    still holds the last requested path. *)
Fixpoint parse_snapshots (d : DestroyArgs) (path : string) (fs_or_vols : list string)
    (snapshots_temp : list string) (snaps : snapshots_plan) : result snapshots_plan :=
  match snapshots_temp with
  | [] => Ok snaps
  | i :: rest =>
      match PyStr.split "@" i with
      | [snap_source; snap_name] =>
          if PyStr.mem snap_source fs_or_vols then
            parse_snapshots d path fs_or_vols rest snaps
          else if negb (String.eqb snap_name "*") && negb (recursive d) then
            parse_snapshots d path fs_or_vols rest
              {| singular := singular snaps ++ [path];
                 channel_programs := channel_programs snaps |}
          else
            let channel_args :=
              {| ca_path := i;
                 ca_pool_name := hd "" (PyStr.split "/" snap_source);
                 ca_readonly := false;
                 ca_script_arguments_dict :=
                   {| sa_recursive := recursive d;
                      sa_target := snap_source;
                      sa_defer := defer d;
                      sa_pattern :=
                        if negb (String.eqb snap_name "*") then Some snap_name
                        else None |} |} in
            parse_snapshots d path fs_or_vols rest
              {| singular := singular snaps;
                 channel_programs := channel_programs snaps ++ [channel_args] |}
      | _ => Raise ValueError
      end
  end.

Definition validate_and_parse_destroy_args (d : DestroyArgs) : result DestroyPlan :=
  match paths d with
  | [] => Raise (ValidationError schema "One path must be given")
  | _ :: _ =>
      '(fs_or_vols, snapshots_temp) <- classify_paths d (paths d) [] [] ;;
      _ <- check_overlap d fs_or_vols ;;
      snaps <- parse_snapshots d (last (paths d) "") fs_or_vols snapshots_temp
                 {| singular := []; channel_programs := [] |} ;;
      Ok {| data := d; fs_or_vols := fs_or_vols; snapshots := snaps |}
  end.

End Validation.

(** ** The storage engine *)

Inductive ChannelProgramEnum := DESTROY_RESOURCES | DESTROY_SNAPSHOTS.

(** The calls made on the library handle and on [lzc]. *)
Inductive call :=
| open_resource (name : string)
| unmount (name : string) (force recursive : bool)
| destroy_resource (name : string)
| destroy_snapshots (snapshot_names : list string)
| run_channel_program (pool_name : string) (script : ChannelProgramEnum)
    (script_arguments_dict : script_arguments) (readonly : bool)
| query_call (paths : list string) (get_children get_snapshots : bool).

(** An engine answers a call, given the calls made before it: [None] when
    the call returns, [Some e] when it raises [e]. *)
Definition engine := list call -> call -> option exn.

(** The engine signals its failures by [ZFSException]; this is the only
    exception [open_resource] and [unmount] are caught for. *)
Definition raises_ZFSException_only (eng : engine) (c : call) : Prop :=
  forall history e, eng history c = Some e -> exists code msg, e = ZFSException code msg.

Definition zfs_engine (eng : engine) : Prop :=
  (forall name, raises_ZFSException_only eng (open_resource name)) /\
  (forall name f r, raises_ZFSException_only eng (unmount name f r)).

(** ** [destroy_impl.py] *)

Record DestroyState := {
  results : dict (option string);
  destroy_args : DestroyPlan;
  log : list call
}.

Inductive run (A : Type) :=
| Returned (a : A)
| Raised (e : exn) (calls : list call).

Arguments Returned {A} a.
Arguments Raised {A} e calls.

Definition record (k : string) (v : option string) (c : list call) (s : DestroyState)
  : DestroyState :=
  {| results := dict_set k v (results s);
     destroy_args := destroy_args s;
     log := c |}.

(** [sorted(l, reverse=True)] on strings. *)
Fixpoint insert_reverse (x : string) (l : list string) : list string :=
  match l with
  | [] => [x]
  | y :: l' => if String.leb y x then x :: l else y :: insert_reverse x l'
  end.

Definition sorted_reverse (l : list string) : list string :=
  fold_right insert_reverse [] l.

(** The last [try] block of [__destroy_fs_or_vols]: the channel program
    when the request is recursive, [destroy_resource] otherwise. *)
Definition destroy_call (args : DestroyArgs) (i : string) : call :=
  if recursive args then
    run_channel_program (hd "" (PyStr.split "/" i)) DESTROY_RESOURCES
      {| sa_recursive := recursive args;
         sa_target := i;
         sa_defer := defer args;
         sa_pattern := None |}
      false
  else destroy_resource i.

Section Executor.

Variable repr : string -> string.
Variable eng : engine.

(** One iteration of the loop of [__destroy_fs_or_vols]. *)
Definition destroy_fs_or_vol (dstate : DestroyState) (i : string) : run DestroyState :=
  let args := data (destroy_args dstate) in
  let c1 := open_resource i in
  let log1 := log dstate ++ [c1] in
  match eng (log dstate) c1 with
  | Some (ZFSException code msg) =>
      if is_ZFSError_NOENT code then
        Returned (record i (Some (repr i ++ " does not exist")%string) log1 dstate)
      else
        Returned (record i (Some msg) log1 dstate)
  | Some e => Raised e log1
  | None =>
      let c2 := unmount i (force args) (recursive args) in
      let log2 := log1 ++ [c2] in
      match eng log1 c2 with
      | Some (ZFSException code msg) =>
          if is_ZFSError_BUSY code && negb (recursive args) then
            Returned (record i
                        (Some ("Failed to unmount, does " ++ repr i ++ " have children?")%string)
                        log2 dstate)
          else
            Returned (record i (Some msg) log2 dstate)
      | Some e => Raised e log2
      | None =>
          let c3 := destroy_call args i in
          let log3 := log2 ++ [c3] in
          match eng log2 c3 with
          | Some e => Returned (record i (Some (exn_str e)) log3 dstate)
          | None => Returned (record i None log3 dstate)
          end
      end
  end.

Fixpoint for_each {A} (body : DestroyState -> A -> run DestroyState)
    (dstate : DestroyState) (l : list A) : run DestroyState :=
  match l with
  | [] => Returned dstate
  | i :: rest =>
      match body dstate i with
      | Returned dstate' => for_each body dstate' rest
      | Raised e c => Raised e c
      end
  end.

Definition __destroy_fs_or_vols (dstate : DestroyState) : run DestroyState :=
  for_each destroy_fs_or_vol dstate
    (sorted_reverse (fs_or_vols (destroy_args dstate))).

(** [results.update({i: v for i in names})]. *)
Definition record_all (names : list string) (v : option string) (c : list call)
    (s : DestroyState) : DestroyState :=
  {| results := fold_left (fun r i => dict_set i v r) names (results s);
     destroy_args := destroy_args s;
     log := c |}.

(** The batched call of [__destroy_snapshots]. *)
Definition destroy_singular (dstate : DestroyState) : DestroyState :=
  match singular (snapshots (destroy_args dstate)) with
  | [] => dstate
  | names =>
      let c := destroy_snapshots names in
      let log1 := log dstate ++ [c] in
      match eng (log dstate) c with
      | Some e => record_all names (Some (exn_str e)) log1 dstate
      | None => record_all names None log1 dstate
      end
  end.

(** One iteration of the loop over [snapshots["channel_programs"]]. *)
Definition destroy_channel_program (dstate : DestroyState) (i : channel_args)
  : run DestroyState :=
  let name := ca_path i in
  let c := run_channel_program (ca_pool_name i) DESTROY_SNAPSHOTS
             (ca_script_arguments_dict i) (ca_readonly i) in
  let log1 := log dstate ++ [c] in
  match eng (log dstate) c with
  | Some e => Returned (record name (Some (exn_str e)) log1 dstate)
  | None => Returned (record name None log1 dstate)
  end.

Definition __destroy_snapshots (dstate : DestroyState) : run DestroyState :=
  for_each destroy_channel_program (destroy_singular dstate)
    (channel_programs (snapshots (destroy_args dstate))).

Definition destroy_impl (plan : DestroyPlan) : run (dict (option string) * list call) :=
  let dstate := {| results := []; destroy_args := plan; log := [] |} in
  match __destroy_fs_or_vols dstate with
  | Raised e c => Raised e c
  | Returned dstate1 =>
      match __destroy_snapshots dstate1 with
      | Raised e c => Raised e c
      | Returned dstate2 => Returned (results dstate2, log dstate2)
      end
  end.

Variable has_internal_path : string -> bool.

(** [ZFSResourceService.destroy_impl], on the merged request: nothing is
    asked of the engine unless validation returns. *)
Definition service_destroy_impl (final : DestroyArgs)
  : run (dict (option string) * list call) :=
  match validate_and_parse_destroy_args has_internal_path repr final with
  | Raise e => Raised e []
  | Ok plan => destroy_impl plan
  end.

End Executor.

(** ** Query *)

(** A record of the flat result list; only the keys [nest_paths] reads
    are kept. *)
#[warnings="-register-all"]
Inductive resource :=
  Resource { name : string; pool : string; children : list resource }.

Record QueryArgs := {
  q_paths : list string;
  q_properties : option (list string);
  q_get_children : bool;
  q_get_snapshots : bool;
  q_nest_results : bool
}.

(** The dictionary a caller passes: any key may be missing. *)
Record QueryData := {
  d_paths : option (list string);
  d_properties : option (option (list string));
  d_get_children : option bool;
  d_get_snapshots : option bool;
  d_nest_results : option bool
}.

Definition or_default {A} (o : option A) (dflt : A) : A :=
  match o with Some a => a | None => dflt end.

(** [base | data]. *)
Definition merge (base : QueryArgs) (d : QueryData) : QueryArgs :=
  {| q_paths := or_default (d_paths d) (q_paths base);
     q_properties := or_default (d_properties d) (q_properties base);
     q_get_children := or_default (d_get_children d) (q_get_children base);
     q_get_snapshots := or_default (d_get_snapshots d) (q_get_snapshots base);
     q_nest_results := or_default (d_nest_results d) (q_nest_results base) |}.

Definition query_schema : string := "zfs.resource.query".

Fixpoint check_no_snapshot (ps : list string) : result unit :=
  match ps with
  | [] => Ok tt
  | path :: rest =>
      if PyStr.contains "@" path then
        Raise (ValidationError query_schema
                 "Set `get_snapshots = True` when wanting to query snapshot information.")
      else check_no_snapshot rest
  end.

Definition validate_query_args (d : QueryArgs) : result unit :=
  _ <- check_no_snapshot (q_paths d) ;;
  match q_get_children d, group_paths_by_parents (q_paths d) with
  | true, _ :: _ =>
      Raise (ValidationError query_schema
               "Paths must be non-overlapping - no path can be relative to another when get_children is set to True.")
  | _, _ => Ok tt
  end.

(** *** [nest_paths]

    The records of the flat list are shared between [node_map], [roots]
    and the [children] lists they are appended to, so they are referred to
    by their position in the flat list; what is appended to the
    [children] of a record is kept as a list of edges, oldest first. *)

Fixpoint index_pass (flat : list resource) (k : nat) (node_map : dict nat)
    (roots : list nat) : dict nat * list nat :=
  match flat with
  | [] => (node_map, roots)
  | item :: rest =>
      let node_map' := dict_set (name item) k node_map in
      if String.eqb (name item) (pool item) then
        index_pass rest (S k) node_map' (roots ++ [k])
      else index_pass rest (S k) node_map' roots
  end.

(** The inner [for parent in ...parents] loop: the first parent indexed. *)
Fixpoint nearest_parent (node_map : dict nat) (parents : list Pathlib.path)
  : option nat :=
  match parents with
  | [] => None
  | parent :: rest =>
      match dict_get (Pathlib.as_posix parent) node_map with
      | Some j => Some j
      | None => nearest_parent node_map rest
      end
  end.

Fixpoint link_pass (flat : list resource) (k : nat) (node_map : dict nat)
    (roots : list nat) (edges : list (nat * nat)) : list nat * list (nat * nat) :=
  match flat with
  | [] => (roots, edges)
  | item :: rest =>
      if String.eqb (name item) (pool item) then
        link_pass rest (S k) node_map roots edges
      else
        match nearest_parent node_map (Pathlib.parents (Pathlib.parse (name item))) with
        | Some j => link_pass rest (S k) node_map roots (edges ++ [(j, k)])
        | None => link_pass rest (S k) node_map (roots ++ [k]) edges
        end
  end.

Definition appended (edges : list (nat * nat)) (j : nat) : list nat :=
  map snd (filter (fun e => Nat.eqb (fst e) j) edges).

(** The record at position [k] as it stands once every append is done.
    A child has more path components than its parent, so the nesting is
    never deeper than the flat list is long. *)
Fixpoint node_at (fuel : nat) (flat : list resource) (edges : list (nat * nat))
    (k : nat) : resource :=
  let item := nth k flat (Resource "" "" []) in
  match fuel with
  | O => item
  | S fuel' =>
      Resource (name item) (pool item)
        (children item ++ map (node_at fuel' flat edges) (appended edges k))
  end.

Definition nest_paths (flat_list : list resource) : list resource :=
  let (node_map, roots0) := index_pass flat_list 0 [] [] in
  let (roots, edges) := link_pass flat_list 0 node_map roots0 [] in
  map (node_at (length flat_list) flat_list edges) roots.

Section Query.

(** The defaults of [ZFSResourceQueryArgs] and the engine's
    [query_impl], which returns the flat records or raises. *)
Variable base : QueryArgs.
Variable engine_query : QueryArgs -> result (list resource).

Definition service_query_impl (d : option QueryData)
  : run (list resource * list call) :=
  let go (final : QueryArgs) :=
    let c := query_call (q_paths final) (q_get_children final)
               (q_get_snapshots final) in
    match engine_query final with
    | Raise e => Raised e [c]
    | Ok flat =>
        if q_nest_results final then Returned (nest_paths flat, [c])
        else Returned (flat, [c])
    end in
  match d with
  | None => go base
  | Some d' =>
      let final := merge base d' in
      match validate_query_args final with
      | Raise e => Raised e []
      | Ok _ => go final
      end
  end.

End Query.

(** ** Vocabulary of the properties *)

(** [p]'s components are the first components of [q], as [pathlib] reads
    the two strings. *)
Definition component_prefix (p q : string) : Prop :=
  Pathlib.root (Pathlib.parse p) = Pathlib.root (Pathlib.parse q) /\
  exists rest,
    Pathlib.tail (Pathlib.parse q) = (Pathlib.tail (Pathlib.parse p) ++ rest)%list.

(** [p] is a strict ancestor of [q]: [q] has components of its own below
    those of [p]. *)
Definition strict_ancestor (p q : string) : Prop :=
  component_prefix p q /\
  Pathlib.tail (Pathlib.parse q) <> Pathlib.tail (Pathlib.parse p).

(** What the grouping looks for: another string under the same components. *)
Definition overlaps (p q : string) : Prop :=
  component_prefix p q /\ q <> p.


(** The resource a call is made on. *)
Definition call_target (c : call) : list string :=
  match c with
  | open_resource n => [n]
  | unmount n _ _ => [n]
  | destroy_resource n => [n]
  | run_channel_program _ _ a _ => [sa_target a]
  | destroy_snapshots _ => []
  | query_call _ _ _ => []
  end.

Definition targets (calls : list call) : list string :=
  flat_map call_target calls.


Definition descending (l : list string) : Prop :=
  StronglySorted (fun x y => String.leb y x = true) l.

Definition initial (plan : DestroyPlan) : DestroyState :=
  {| results := []; destroy_args := plan; log := [] |}.

(** The calls one dataset or volume can give rise to: the engine is asked
    to open it, then to unmount it, then to destroy it, and the first
    failure ends the sequence. *)
Definition fs_or_vol_calls (args : DestroyArgs) (i : string) : list (list call) :=
  [ [open_resource i];
    [open_resource i; unmount i (force args) (recursive args)];
    [open_resource i; unmount i (force args) (recursive args); destroy_call args i] ].

(** What one iteration over a dataset or volume leaves behind. *)
Definition fs_or_vol_step (st : DestroyState) (i : string) (st' : DestroyState) : Prop :=
  destroy_args st' = destroy_args st /\
  (exists v, results st' = dict_set i v (results st)) /\
  (exists ext, In ext (fs_or_vol_calls (data (destroy_args st)) i) /\
               log st' = (log st ++ ext)%list).

(** What one iteration over a channel program leaves behind. *)
Definition channel_program_step (st : DestroyState) (i : channel_args)
    (st' : DestroyState) : Prop :=
  destroy_args st' = destroy_args st /\
  (exists v, results st' = dict_set (ca_path i) v (results st)) /\
  log st' =
    (log st ++ [run_channel_program (ca_pool_name i) DESTROY_SNAPSHOTS
                  (ca_script_arguments_dict i) (ca_readonly i)])%list.

(** A loop whose iterations are related by [P]. *)
Inductive steps {A} (P : DestroyState -> A -> DestroyState -> Prop)
  : DestroyState -> list A -> DestroyState -> Prop :=
| steps_nil st : steps P st [] st
| steps_cons st i st1 l st2 :
    P st i st1 -> steps P st1 l st2 -> steps P st (i :: l) st2.

(** Every iteration writes one key of the results. *)
Definition sets_key {A} (key : A -> string)
    (P : DestroyState -> A -> DestroyState -> Prop) : Prop :=
  forall st i st', P st i st' ->
    destroy_args st' = destroy_args st /\
    exists v, results st' = dict_set (key i) v (results st).

(** The datasets and volumes the engine was asked to open, in order. *)
Definition opened (calls : list call) : list string :=
  flat_map (fun c => match c with open_resource n => [n] | _ => [] end) calls.



(** No two of the paths are a strict ancestor and its descendant. *)
Definition no_strict_pair (fs : list string) : Prop :=
  ~ exists p q, In p fs /\ In q fs /\ strict_ancestor p q.

(** *** Sample inputs *)

(** [repr] on a string that needs no escaping. *)
Definition quote (s : string) : string := ("'" ++ s ++ "'")%string.

Definition no_internal_path (path : string) : bool := false.

(** An engine on which every call returns. *)
Definition engine_ok : engine := fun _ _ => None.

(** An engine on which nothing can be opened, and every other call fails
    too. *)
Definition engine_failing : engine :=
  fun _ c =>
    match c with
    | open_resource _ => Some (ZFSException EZFS_NOENT "dataset does not exist")
    | unmount _ _ _ => Some (ZFSException EZFS_BUSY "pool or dataset is busy")
    | _ => Some (Exception "channel program failed")
    end.

Definition request (ps : list string) (rec : bool) : DestroyArgs :=
  {| paths := ps;
     recursive := rec;
     force := false;
     defer := false;
     allow_destroy_internal_paths := false |}.

Definition tank_nodes : list resource :=
  [Resource "tank" "tank" []; Resource "tank/a" "tank" [];
   Resource "tank/a/b" "tank" []].

Definition tank_tree : list resource :=
  [Resource "tank" "tank"
     [Resource "tank/a" "tank" [Resource "tank/a/b" "tank" []]]].

Definition query_defaults : QueryArgs :=
  {| q_paths := [];
     q_properties := Some [];
     q_get_children := false;
     q_get_snapshots := false;
     q_nest_results := false |}.

(** ** The service methods around validation *)

(** The dictionary a caller of [destroy] passes: any key may be missing. *)
Record DestroyData := {
  dd_paths : option (list string);
  dd_recursive : option bool;
  dd_force : option bool;
  dd_defer : option bool;
  dd_allow_destroy_internal_paths : option bool
}.

(** [base | data | adip], and [base | adip] when there is no [data]: the
    argument of the method has the last word on
    [allow_destroy_internal_paths]. *)
Definition destroy_final (base : DestroyArgs) (d : option DestroyData) (adip : bool)
  : DestroyArgs :=
  match d with
  | None =>
      {| paths := paths base;
         recursive := recursive base;
         force := force base;
         defer := defer base;
         allow_destroy_internal_paths := adip |}
  | Some d' =>
      {| paths := or_default (dd_paths d') (paths base);
         recursive := or_default (dd_recursive d') (recursive base);
         force := or_default (dd_force d') (force base);
         defer := or_default (dd_defer d') (defer base);
         allow_destroy_internal_paths := adip |}
  end.

(** [ZFSResourceService.destroy_impl], from the caller's dictionary;
    [base] stands for the defaults of [ZFSResourceDestroyArgs]. *)
Definition ZFSResourceService_destroy_impl (repr : string -> string) (eng : engine)
    (has_internal_path : string -> bool) (base : DestroyArgs)
    (d : option DestroyData) (allow_destroy_internal_paths : bool)
  : run (dict (option string) * list call) :=
  service_destroy_impl repr eng has_internal_path
    (destroy_final base d allow_destroy_internal_paths).

(** [ZFSResourceService.destroy]: the public method, which leaves
    [allow_destroy_internal_paths] to its default. *)
Definition ZFSResourceService_destroy (repr : string -> string) (eng : engine)
    (has_internal_path : string -> bool) (base : DestroyArgs)
    (d : option DestroyData) : run (dict (option string) * list call) :=
  ZFSResourceService_destroy_impl repr eng has_internal_path base d false.

(** ** Vocabulary of the further properties *)

(** What the first loop of validation asks of a path. *)
Definition well_formed (has_internal_path : string -> bool) (d : DestroyArgs)
    (p : string) : Prop :=
  (exists c0 cl, PyStr.first p = Some c0 /\ PyStr.last p = Some cl /\
                 c0 <> "/"%char /\ cl <> "/"%char) /\
  PyStr.contains "#" p = false /\
  PyStr.contains "/" p = true /\
  (allow_destroy_internal_paths d = true \/ has_internal_path p = false) /\
  (PyStr.contains "@" p = true ->
   exists src nm, PyStr.split "@" p = [src; nm] /\
                  PyStr.blank src = false /\ PyStr.blank nm = false).

Definition is_snapshot_path (p : string) : bool := PyStr.contains "@" p.

Definition is_fs_or_vol_path (p : string) : bool := negb (PyStr.contains "@" p).

(** A call bears on what the request names: a requested path, or the
    source of a requested snapshot. *)
Definition call_on_request (d : DestroyArgs) (c : call) : Prop :=
  match c with
  | open_resource n | unmount n _ _ | destroy_resource n =>
      In n (paths d) /\ is_fs_or_vol_path n = true
  | destroy_snapshots names => forall n, In n names -> In n (paths d)
  | run_channel_program _ DESTROY_RESOURCES a _ =>
      In (sa_target a) (paths d) /\ is_fs_or_vol_path (sa_target a) = true
  | run_channel_program _ DESTROY_SNAPSHOTS a _ =>
      exists p nm, In p (paths d) /\ PyStr.split "@" p = [sa_target a; nm]
  | query_call _ _ _ => False
  end.

(** The record is the root file system of its pool. *)
Definition is_pool_root (item : resource) : bool :=
  String.eqb (name item) (pool item).

(** None of the parents of the record's name is the name of a record of
    the list. *)
Definition no_parent_in (flat : list resource) (item : resource) : bool :=
  forallb (fun parent => negb (PyStr.mem (Pathlib.as_posix parent) (map name flat)))
    (Pathlib.parents (Pathlib.parse (name item))).

Definition is_orphan (flat : list resource) (item : resource) : bool :=
  negb (is_pool_root item) && no_parent_in flat item.

Definition name_at (flat : list resource) (k : nat) : string :=
  name (nth k flat (Resource "" "" [])).

(** ** Vocabulary of the values of a run *)

(** The call of one iteration over [snapshots["channel_programs"]]. *)
Definition snapshots_call (ca : channel_args) : call :=
  run_channel_program (ca_pool_name ca) DESTROY_SNAPSHOTS
    (ca_script_arguments_dict ca) (ca_readonly ca).

(** What the iteration on the dataset or volume [i] records under [i]
    when it starts after the calls [h]: the first of its three calls that
    fails decides, and [None] is recorded when none does. *)
Definition fs_or_vol_outcome (repr : string -> string) (eng : engine)
    (args : DestroyArgs) (h : list call) (i : string) (v : option string) : Prop :=
  let o := open_resource i in
  let u := unmount i (force args) (recursive args) in
  let c := destroy_call args i in
  (exists code msg,
     eng h o = Some (ZFSException code msg) /\
     v = Some (if is_ZFSError_NOENT code
               then (repr i ++ " does not exist")%string
               else msg)) \/
  (eng h o = None /\
   exists code msg,
     eng (h ++ [o]) u = Some (ZFSException code msg) /\
     v = Some (if is_ZFSError_BUSY code && negb (recursive args)
               then ("Failed to unmount, does " ++ repr i ++ " have children?")%string
               else msg)) \/
  (eng h o = None /\
   eng (h ++ [o]) u = None /\
   v = option_map exn_str (eng (h ++ [o; u]) c)).

(** *** Further sample engines *)

(** An engine on which [open_resource] fails with something else than a
    [ZFSException], every other call returning. *)
Definition engine_open_crashing : engine :=
  fun _ c =>
    match c with
    | open_resource _ => Some (Exception "invalid argument")
    | _ => None
    end.

(** An engine on which no dataset can be opened, every other call
    returning. *)
Definition engine_no_dataset : engine :=
  fun _ c =>
    match c with
    | open_resource _ => Some (ZFSException EZFS_NOENT "dataset does not exist")
    | _ => None
    end.


(** * Properties *)

(** ** The order on strings *)

Lemma ascii_compare_refl (a : ascii) : Ascii.compare a a = Eq.
Proof. unfold Ascii.compare. apply N.compare_refl. Qed.

Lemma ascii_compare_trans (c : comparison) (a b d : ascii) :
  Ascii.compare a b = c -> Ascii.compare b d = c -> Ascii.compare a d = c.
Proof.
  unfold Ascii.compare. destruct c; intros H1 H2.
  - apply N.compare_eq_iff in H1, H2. apply N.compare_eq_iff. congruence.
  - apply N.compare_lt_iff in H1, H2. apply N.compare_lt_iff.
    eapply N.lt_trans; eassumption.
  - apply N.compare_gt_iff in H1, H2. apply N.compare_gt_iff.
    eapply N.lt_trans; eassumption.
Qed.

Lemma string_compare_refl (s : string) : String.compare s s = Eq.
Proof. induction s; simpl; [reflexivity | now rewrite ascii_compare_refl]. Qed.

Lemma string_compare_lt_trans (s1 s2 s3 : string) :
  String.compare s1 s2 = Lt -> String.compare s2 s3 = Lt ->
  String.compare s1 s3 = Lt.
Proof.
  revert s2 s3. induction s1 as [|a s1 IH]; intros [|b s2] [|d s3]; simpl;
    try congruence.
  destruct (Ascii.compare a b) eqn:Hab; try discriminate;
    destruct (Ascii.compare b d) eqn:Hbd; try discriminate; intros H1 H2.
  - rewrite (ascii_compare_trans Eq a b d Hab Hbd). eauto.
  - apply Ascii.compare_eq_iff in Hab. subst. now rewrite Hbd.
  - apply Ascii.compare_eq_iff in Hbd. subst. now rewrite Hab.
  - now rewrite (ascii_compare_trans Lt a b d Hab Hbd).
Qed.

Lemma string_leb_trans (s1 s2 s3 : string) :
  String.leb s1 s2 = true -> String.leb s2 s3 = true -> String.leb s1 s3 = true.
Proof.
  unfold String.leb.
  destruct (String.compare s1 s2) eqn:H12; try discriminate;
    destruct (String.compare s2 s3) eqn:H23; try discriminate; intros _ _.
  - apply String.compare_eq_iff in H12, H23. subst. now rewrite string_compare_refl.
  - apply String.compare_eq_iff in H12. subst. now rewrite H23.
  - apply String.compare_eq_iff in H23. subst. now rewrite H12.
  - now rewrite (string_compare_lt_trans _ _ _ H12 H23).
Qed.

Lemma string_leb_false (s1 s2 : string) :
  String.leb s1 s2 = false -> String.leb s2 s1 = true.
Proof.
  intros H. destruct (String.leb_total s1 s2) as [H'|H']; congruence.
Qed.



(** ** [sorted(..., reverse=True)] *)

Lemma insert_reverse_perm (x : string) (l : list string) :
  Permutation (x :: l) (insert_reverse x l).
Proof.
  induction l as [|y l IH]; cbn [insert_reverse]; [reflexivity|].
  destruct (String.leb y x); [reflexivity|].
  rewrite perm_swap. now constructor.
Qed.

Lemma sorted_reverse_perm (l : list string) : Permutation l (sorted_reverse l).
Proof.
  induction l as [|x l IH]; simpl; [constructor|].
  rewrite <- insert_reverse_perm. now constructor.
Qed.

Lemma insert_reverse_descending (x : string) (l : list string) :
  descending l -> descending (insert_reverse x l).
Proof.
  unfold descending. induction l as [|y l IH]; intros Hs; cbn [insert_reverse].
  - repeat constructor.
  - inversion Hs as [|? ? Hl Hy]; subst.
    destruct (String.leb y x) eqn:Hyx.
    + constructor; [assumption|]. constructor; [assumption|].
      eapply Forall_impl; [|exact Hy]. intros z Hz.
      exact (string_leb_trans _ _ _ Hz Hyx).
    + constructor; [auto|].
      eapply Permutation_Forall; [apply insert_reverse_perm|].
      constructor; [now apply string_leb_false | assumption].
Qed.

Lemma sorted_reverse_descending (l : list string) : descending (sorted_reverse l).
Proof.
  induction l as [|x l IH]; simpl; [constructor|].
  now apply insert_reverse_descending.
Qed.



(** ** Dictionaries *)

Section DictFacts.

Context {V : Type}.
Implicit Types (d : dict V) (k : string) (v : V).

Lemma dict_keys_set_in k v d : In k (dict_keys (dict_set k v d)).
Proof.
  induction d as [|[k' v'] d IH]; simpl; [now left|].
  destruct (String.eqb k' k); simpl; auto.
Qed.

Lemma dict_keys_set_mono k v d x :
  In x (dict_keys d) -> In x (dict_keys (dict_set k v d)).
Proof.
  induction d as [|[k' v'] d IH]; simpl; [tauto|].
  destruct (String.eqb_spec k' k); simpl; intros [H|H]; subst; auto.
Qed.

Lemma dict_keys_set_inv k v d x :
  In x (dict_keys (dict_set k v d)) -> x = k \/ In x (dict_keys d).
Proof.
  induction d as [|[k' v'] d IH]; simpl.
  - intros [H|[]]; auto.
  - destruct (String.eqb_spec k' k); simpl; intros [H|H]; subst; auto.
    destruct (IH H); auto.
Qed.

Lemma dict_keys_set_NoDup k v d :
  NoDup (dict_keys d) -> NoDup (dict_keys (dict_set k v d)).
Proof.
  induction d as [|[k' v'] d IH]; simpl; intros H.
  - constructor; [tauto | constructor].
  - inversion H as [|? ? Hn Hd]; subst.
    destruct (String.eqb_spec k' k); simpl.
    + subst. now constructor.
    + constructor; [|auto].
      intros Hin. apply dict_keys_set_inv in Hin. destruct Hin; congruence.
Qed.

Lemma dict_get_set_same k v d : dict_get k (dict_set k v d) = Some v.
Proof.
  induction d as [|[k' v'] d IH]; simpl.
  - now rewrite String.eqb_refl.
  - destruct (String.eqb k' k) eqn:E; simpl.
    + now rewrite String.eqb_refl.
    + now rewrite E.
Qed.

Lemma dict_get_set_other k v d x :
  x <> k -> dict_get x (dict_set k v d) = dict_get x d.
Proof.
  intros Hx. induction d as [|[k' v'] d IH]; simpl.
  - destruct (String.eqb_spec k x); congruence.
  - destruct (String.eqb_spec k' k); simpl.
    + subst. destruct (String.eqb_spec k x); congruence.
    + now rewrite IH.
Qed.

(** [update] with one value for a list of keys. *)
Lemma dict_keys_update_mono (names : list string) v d x :
  In x (dict_keys d) ->
  In x (dict_keys (fold_left (fun r i => dict_set i v r) names d)).
Proof.
  revert d. induction names as [|n names IH]; simpl; intros d H; [trivial|].
  apply IH. now apply dict_keys_set_mono.
Qed.

Lemma dict_keys_update_in (names : list string) v d x :
  In x names ->
  In x (dict_keys (fold_left (fun r i => dict_set i v r) names d)).
Proof.
  revert d. induction names as [|n names IH]; simpl; intros d H; [tauto|].
  destruct H as [H|H].
  - subst. apply dict_keys_update_mono, dict_keys_set_in.
  - now apply IH.
Qed.

Lemma dict_keys_update_NoDup (names : list string) v d :
  NoDup (dict_keys d) ->
  NoDup (dict_keys (fold_left (fun r i => dict_set i v r) names d)).
Proof.
  revert d. induction names as [|n names IH]; simpl; intros d H; [trivial|].
  apply IH. now apply dict_keys_set_NoDup.
Qed.

End DictFacts.

(** ** The loops of the executor *)

Lemma for_each_steps {A} (body : DestroyState -> A -> run DestroyState)
    (P : DestroyState -> A -> DestroyState -> Prop) :
  (forall st i, exists st', body st i = Returned st' /\ P st i st') ->
  forall l st, exists st', for_each body st l = Returned st' /\ steps P st l st'.
Proof.
  intros Hbody. induction l as [|i l IH]; intros st; simpl.
  - exists st. split; [reflexivity | constructor].
  - destruct (Hbody st i) as (st1 & -> & HP).
    destruct (IH st1) as (st2 & -> & Hsteps).
    exists st2. split; [reflexivity | econstructor; eassumption].
Qed.

Lemma steps_keys {A} (key : A -> string) P st l st' :
  sets_key key P -> steps P st l st' ->
  destroy_args st' = destroy_args st /\
  (NoDup (dict_keys (results st)) -> NoDup (dict_keys (results st'))) /\
  (forall x, In x (dict_keys (results st)) -> In x (dict_keys (results st'))) /\
  (forall i, In i l -> In (key i) (dict_keys (results st'))).
Proof.
  intros HP Hs. induction Hs as [st | st i st1 l st2 Hi Hs IH].
  - repeat split; auto. intros i [].
  - destruct (HP _ _ _ Hi) as (Hargs & v & Hres).
    destruct IH as (IHa & IHn & IHm & IHk).
    repeat split.
    + congruence.
    + intros Hn. apply IHn. rewrite Hres. now apply dict_keys_set_NoDup.
    + intros x Hx. apply IHm. rewrite Hres. now apply dict_keys_set_mono.
    + intros j [<-|Hj]; [|auto].
      apply IHm. rewrite Hres. apply dict_keys_set_in.
Qed.

Lemma fs_or_vol_step_sets_key : sets_key (fun i => i) fs_or_vol_step.
Proof. intros st i st' (Ha & Hv & _). auto. Qed.

Lemma channel_program_step_sets_key : sets_key ca_path channel_program_step.
Proof. intros st i st' (Ha & Hv & _). auto. Qed.

(** The calls of one iteration all bear on the entry, the first of them
    being the only [open_resource]. *)
Lemma fs_or_vol_calls_shape (args : DestroyArgs) (i : string) (ext : list call) :
  In ext (fs_or_vol_calls args i) ->
  opened ext = [i] /\ Forall (eq i) (targets ext) /\
  exists rest, ext = open_resource i :: rest.
Proof.
  unfold fs_or_vol_calls, destroy_call.
  intros [<-|[<-|[<-|[]]]]; simpl; (split; [|split]); eauto;
    destruct (recursive args); simpl; repeat constructor.
Qed.

Lemma opened_app (l1 l2 : list call) : opened (l1 ++ l2) = opened l1 ++ opened l2.
Proof. apply flat_map_app. Qed.

Lemma targets_app (l1 l2 : list call) : targets (l1 ++ l2) = targets l1 ++ targets l2.
Proof. apply flat_map_app. Qed.

Lemma steps_fs_or_vol_opened st l st' :
  steps fs_or_vol_step st l st' ->
  opened (log st') = opened (log st) ++ l /\
  (forall c, In c (log st') ->
     In c (log st) \/
     exists i, In i l /\
       exists ext, In ext (fs_or_vol_calls (data (destroy_args st)) i) /\ In c ext).
Proof.
  induction 1 as [st | st i st1 l st2 Hi Hs IH].
  - rewrite app_nil_r. auto.
  - destruct Hi as (Hargs & _ & ext & Hext & Hlog).
    destruct IH as (IHo & IHc).
    destruct (fs_or_vol_calls_shape _ _ _ Hext) as (Ho & _).
    split.
    + rewrite IHo, Hlog, opened_app, Ho, <- app_assoc. reflexivity.
    + intros c Hc. destruct (IHc c Hc) as [Hc'|(j & Hj & e & He & Hce)].
      * rewrite Hlog in Hc'. apply in_app_or in Hc'. destruct Hc' as [Hc'|Hc'].
        -- now left.
        -- right. exists i. split; [now left|]. eauto.
      * right. exists j. split; [now right|]. rewrite Hargs in He. eauto.
Qed.

Lemma descending_app (l1 l2 : list string) :
  descending l1 -> descending l2 ->
  (forall a b, In a l1 -> In b l2 -> String.leb b a = true) ->
  descending (l1 ++ l2).
Proof.
  unfold descending. induction l1 as [|x l1 IH]; simpl; intros H1 H2 H12; [trivial|].
  inversion H1 as [|? ? Hs Hx]; subst.
  constructor.
  - apply IH; auto.
  - apply Forall_app. split; [assumption|].
    apply Forall_forall. intros b Hb. apply H12; auto.
Qed.

Lemma string_leb_refl (s : string) : String.leb s s = true.
Proof. unfold String.leb. now rewrite string_compare_refl. Qed.

Lemma descending_constant (x : string) (l : list string) :
  Forall (eq x) l -> descending l.
Proof.
  unfold descending. induction 1 as [|y l <- Hl IH]; constructor; [assumption|].
  eapply Forall_impl; [|exact Hl]. intros z <-. apply string_leb_refl.
Qed.

(** The calls come in the order of the entries: when these are taken in
    descending order, so are the resources the calls are made on. *)
Lemma steps_fs_or_vol_targets st l st' :
  steps fs_or_vol_step st l st' ->
  descending l ->
  descending (targets (log st)) ->
  (forall t i, In t (targets (log st)) -> In i l -> String.leb i t = true) ->
  descending (targets (log st')).
Proof.
  induction 1 as [st | st i st1 l st2 Hi Hs IH]; intros Hl Hd Hle; [assumption|].
  destruct Hi as (_ & _ & ext & Hext & Hlog).
  destruct (fs_or_vol_calls_shape _ _ _ Hext) as (_ & Ht & _).
  rewrite Forall_forall in Ht.
  inversion Hl as [|? ? Hl' Hi']; subst. rewrite Forall_forall in Hi'.
  apply IH; [assumption| |].
  - rewrite Hlog, targets_app. apply descending_app; [assumption| |].
    + apply (descending_constant i). now apply Forall_forall.
    + intros a b Ha Hb. rewrite <- (Ht b Hb). apply Hle; [assumption | now left].
  - intros t j Ht' Hj. rewrite Hlog, targets_app in Ht'.
    apply in_app_or in Ht'. destruct Ht' as [Ht'|Ht'].
    + apply Hle; [assumption | now right].
    + rewrite <- (Ht t Ht'). now apply Hi'.
Qed.

Section ExecutorFacts.

Variable repr : string -> string.
Variable eng : engine.

Lemma destroy_channel_program_step st i :
  exists st', destroy_channel_program eng st i = Returned st' /\
              channel_program_step st i st'.
Proof.
  unfold destroy_channel_program, channel_program_step, record.
  destruct (eng (log st) _); eexists; (split; [reflexivity|]); simpl; eauto.
Qed.

Hypothesis Heng : zfs_engine eng.

Lemma destroy_fs_or_vol_step st i :
  exists st', destroy_fs_or_vol repr eng st i = Returned st' /\
              fs_or_vol_step st i st'.
Proof.
  destruct Heng as [Hopen Hunmount].
  unfold destroy_fs_or_vol, fs_or_vol_step, fs_or_vol_calls, record.
  destruct (eng (log st) (open_resource i)) as [e|] eqn:E1.
  - destruct (Hopen _ _ _ E1) as (code & msg & ->).
    destruct (is_ZFSError_NOENT code); eexists; (split; [reflexivity|]);
      simpl; eauto 8.
  - destruct (eng (log st ++ [open_resource i]) (unmount i _ _)) as [e|] eqn:E2.
    + destruct (Hunmount _ _ _ _ _ E2) as (code & msg & ->).
      destruct (is_ZFSError_BUSY code && negb _); eexists;
        (split; [reflexivity|]); simpl; rewrite <- ?app_assoc; simpl; eauto 8.
    + destruct (eng _ (destroy_call _ i)); eexists; (split; [reflexivity|]);
        simpl; rewrite <- ?app_assoc; simpl; eauto 10.
Qed.

End ExecutorFacts.

(** ** Strings and paths *)

Lemma split_length_pos (c : ascii) (s : string) : 1 <= length (PyStr.split c s).
Proof.
  induction s as [|a s IH]; simpl; [lia|].
  destruct (Ascii.eqb a c); simpl; [lia|].
  destruct (PyStr.split c s); simpl in *; lia.
Qed.

Lemma split_length_contains (c : ascii) (s : string) :
  PyStr.contains c s = true -> 2 <= length (PyStr.split c s).
Proof.
  induction s as [|a s IH]; simpl; [discriminate|].
  destruct (Ascii.eqb a c); simpl.
  - intros _. pose proof (split_length_pos c s). lia.
  - intros H. specialize (IH H). destruct (PyStr.split c s); simpl in *; lia.
Qed.

Lemma mem_In (x : string) (l : list string) : PyStr.mem x l = true <-> In x l.
Proof.
  unfold PyStr.mem. rewrite existsb_exists. split.
  - intros (y & Hy & E). apply String.eqb_eq in E. now subst.
  - intros H. exists x. split; [assumption | apply String.eqb_refl].
Qed.

Lemma prefixb_spec (l1 l2 : list string) :
  Pathlib.prefixb l1 l2 = true <-> exists rest, l2 = l1 ++ rest.
Proof.
  revert l2. induction l1 as [|x l1 IH]; intros l2; simpl.
  - split; eauto.
  - destruct l2 as [|y l2].
    + split; [discriminate | intros (rest & H); discriminate].
    + rewrite andb_true_iff, String.eqb_eq, IH. split.
      * intros (-> & rest & ->). eauto.
      * intros (rest & H). injection H as -> ->. eauto.
Qed.

Lemma relative_subpath_spec (p q : string) :
  relative_subpath p q = true <-> overlaps p q.
Proof.
  unfold relative_subpath, overlaps, component_prefix, Pathlib.is_relative_to.
  rewrite !andb_true_iff, negb_true_iff, String.eqb_eq, String.eqb_neq, prefixb_spec.
  intuition congruence.
Qed.

Lemma strict_ancestor_overlaps (p q : string) : strict_ancestor p q -> overlaps p q.
Proof. intros [Hc Hne]. split; [assumption | congruence]. Qed.

(** ** The grouping *)

Lemma dict_set_not_nil {V} (k : string) (v : V) (d : dict V) : dict_set k v d <> [].
Proof. destruct d as [|[k' v'] d]; simpl; [|destruct (String.eqb k' k)]; discriminate. Qed.

Lemma dict_set_In {V} (k : string) (v : V) (d : dict V) (e : string * V) :
  In e (dict_set k v d) -> e = (k, v) \/ In e d.
Proof.
  induction d as [|[k' v'] d IH]; simpl.
  - intros [<-|[]]; auto.
  - destruct (String.eqb k' k); simpl; intros [<-|H]; auto.
    destruct (IH H); auto.
Qed.

Section Grouping.

Variable paths : list string.

Lemma group_fold_nil (l : list string) (acc : dict (list string)) :
  fold_left (group_step paths) l acc = [] <->
  acc = [] /\ forall p, In p l -> filter (relative_subpath p) paths = [].
Proof.
  revert acc. induction l as [|x l IH]; intros acc; simpl.
  - intuition.
  - rewrite IH. unfold group_step at 1.
    destruct (filter (relative_subpath x) paths) as [|y ys] eqn:E.
    + split.
      * intros [-> H]. split; [reflexivity|]. intros p [<-|Hp]; auto.
      * intros [-> H]. auto.
    + split.
      * intros [H _]. now apply dict_set_not_nil in H.
      * intros [_ H]. specialize (H x (or_introl eq_refl)). congruence.
Qed.

Lemma group_fold_In (l : list string) (acc : dict (list string)) k v :
  In (k, v) (fold_left (group_step paths) l acc) ->
  In (k, v) acc \/
  (In k l /\ v = filter (relative_subpath k) paths /\ v <> []).
Proof.
  revert acc. induction l as [|x l IH]; intros acc; simpl; [auto|].
  intros H. apply IH in H. destruct H as [H|(Hk & Hv & Hn)]; [|now auto].
  unfold group_step in H.
  destruct (filter (relative_subpath x) paths) as [|y ys] eqn:E; [auto|].
  apply dict_set_In in H. destruct H as [H|H]; [|auto].
  injection H as -> ->. right. rewrite E. repeat split; auto. discriminate.
Qed.

Lemma group_paths_by_parents_nil :
  group_paths_by_parents paths = [] <->
  ~ exists p q, In p paths /\ In q paths /\ overlaps p q.
Proof.
  unfold group_paths_by_parents. rewrite group_fold_nil. split.
  - intros [_ H] (p & q & Hp & Hq & Ho).
    apply relative_subpath_spec in Ho.
    assert (Hin : In q (filter (relative_subpath p) paths))
      by (apply filter_In; auto).
    rewrite (H p Hp) in Hin. destruct Hin.
  - intros H. split; [reflexivity|]. intros p Hp.
    destruct (filter (relative_subpath p) paths) as [|q qs] eqn:E; [reflexivity|].
    exfalso. apply H. exists p, q.
    assert (Hin : In q (filter (relative_subpath p) paths))
      by (rewrite E; now left).
    apply filter_In in Hin. destruct Hin as [Hq Ho].
    apply relative_subpath_spec in Ho. auto.
Qed.

(** Each item of the grouping is a path of the list with every other
    path that lies under it. *)
Lemma group_paths_by_parents_In k v :
  In (k, v) (group_paths_by_parents paths) ->
  In k paths /\ v = filter (relative_subpath k) paths /\ v <> [] /\
  forall q, In q v <-> In q paths /\ overlaps k q.
Proof.
  unfold group_paths_by_parents. intros H.
  apply group_fold_In in H. destruct H as [[]|(Hk & Hv & Hn)].
  do 3 (split; [assumption|]). intros q. subst v.
  rewrite filter_In, relative_subpath_spec. reflexivity.
Qed.

End Grouping.

(** ** Validation *)

Section ValidationFacts.

Variable has_internal_path : string -> bool.
Variable repr : string -> string.

(** A path kept as a snapshot has exactly one [@]. *)
Lemma classify_Snapshot d p :
  classify has_internal_path repr d p = Ok Snapshot -> exists a b, PyStr.split "@" p = [a; b].
Proof.
  unfold classify.
  destruct (PyStr.first p); [|discriminate].
  destruct (PyStr.last p); [|discriminate].
  destruct (_ || _); [discriminate|].
  destruct (PyStr.contains "#" p); [discriminate|].
  destruct (negb (PyStr.contains "/" p)).
  { destruct (_ && _); discriminate. }
  destruct (_ && _); [discriminate|].
  destruct (PyStr.contains "@" p) eqn:Hat; [|discriminate].
  apply split_length_contains in Hat.
  destruct (2 <? length (PyStr.split "@" p))%nat eqn:Hlen; [discriminate|].
  apply Nat.ltb_ge in Hlen. intros _.
  destruct (PyStr.split "@" p) as [|x [|y [|z l]]]; simpl in *; try lia.
  eauto.
Qed.

(** The first loop sorts the paths it accepts into the two lists. *)
Lemma classify_paths_spec d ps fs st fs' st' :
  classify_paths has_internal_path repr d ps fs st = Ok (fs', st') ->
  (forall p, In p fs' <-> In p fs \/ (In p ps /\ classify has_internal_path repr d p = Ok FsOrVol)) /\
  (forall p, In p st' <-> In p st \/ (In p ps /\ classify has_internal_path repr d p = Ok Snapshot)).
Proof.
  revert fs st. induction ps as [|x ps IH]; intros fs st; simpl.
  - intros H. injection H as <- <-. split; intros p; tauto.
  - destruct (classify has_internal_path repr d x) as [[|]|e] eqn:E; simpl; [| |discriminate];
      intros H; apply IH in H; destruct H as [Hfs Hst];
      split; intros p; rewrite ?Hfs, ?Hst, ?in_app_iff; simpl;
      intuition (subst; auto; congruence).
Qed.

Lemma parse_snapshots_returns d path fs st snaps :
  Forall (fun i => exists a b, PyStr.split "@" i = [a; b]) st ->
  exists snaps', parse_snapshots d path fs st snaps = Ok snaps'.
Proof.
  intros H. revert snaps. induction H as [|i st (a & b & Hi) _ IH]; intros snaps; simpl.
  - eauto.
  - rewrite Hi. destruct (PyStr.mem a fs); [apply IH|].
    destruct (_ && _); apply IH.
Qed.


(** Once the first loop has returned, validation returns unless the
    overlap check raises. *)
Lemma validate_returns d fs st :
  paths d <> [] ->
  classify_paths has_internal_path repr d (paths d) [] [] = Ok (fs, st) ->
  check_overlap d fs = Ok tt ->
  exists snaps,
    parse_snapshots d (last (paths d) "") fs st
      {| singular := []; channel_programs := [] |} = Ok snaps /\
    validate_and_parse_destroy_args has_internal_path repr d =
      Ok {| data := d; fs_or_vols := fs; snapshots := snaps |}.
Proof.
  intros Hne Hc Ho.
  destruct (parse_snapshots_returns d (last (paths d) "") fs st
              {| singular := []; channel_programs := [] |}) as [snaps Hs].
  { apply Forall_forall. intros i Hi.
    apply (classify_paths_spec _ _ _ _ _ _ Hc) in Hi.
    destruct Hi as [[]|[_ Hi]]. now apply classify_Snapshot in Hi. }
  exists snaps. split; [assumption|].
  unfold validate_and_parse_destroy_args.
  destruct (paths d) eqn:Hp; [congruence|]. cbv beta iota.
  rewrite Hc. cbn [bind]. rewrite Ho. cbn [bind]. rewrite Hs. reflexivity.
Qed.

(** What a plan that validation returns is made of. *)
Lemma validate_inv d plan :
  validate_and_parse_destroy_args has_internal_path repr d = Ok plan ->
  exists st,
    paths d <> [] /\
    classify_paths has_internal_path repr d (paths d) [] [] = Ok (fs_or_vols plan, st) /\
    check_overlap d (fs_or_vols plan) = Ok tt /\
    parse_snapshots d (last (paths d) "") (fs_or_vols plan) st
      {| singular := []; channel_programs := [] |} = Ok (snapshots plan) /\
    data plan = d.
Proof.
  unfold validate_and_parse_destroy_args.
  destruct (paths d) eqn:Hp; [discriminate|]. cbv beta iota. rewrite <- Hp.
  destruct (classify_paths has_internal_path repr d (paths d) [] []) as [[fs st]|e] eqn:Hc; [|discriminate].
  cbn [bind]. destruct (check_overlap d fs) as [[]|e] eqn:Ho; [|discriminate].
  cbn [bind]. destruct (parse_snapshots d _ fs st _) as [snaps|e] eqn:Hs; [|discriminate].
  cbn [bind]. intros H. injection H as <-. simpl.
  exists st. repeat split; auto. congruence.
Qed.

End ValidationFacts.

(** ** A whole run of the executor *)

Lemma opened_In (i : string) (l : list call) :
  In i (opened l) <-> In (open_resource i) l.
Proof.
  unfold opened. rewrite in_flat_map. split.
  - intros (c & Hc & Hi). destruct c; simpl in Hi; try contradiction.
    destruct Hi as [<-|[]]. assumption.
  - intros H. exists (open_resource i). split; [assumption | now left].
Qed.

Lemma steps_channel_program_log st l st' :
  steps channel_program_step st l st' ->
  log st' =
    log st ++ map (fun i => run_channel_program (ca_pool_name i) DESTROY_SNAPSHOTS
                               (ca_script_arguments_dict i) (ca_readonly i)) l.
Proof.
  induction 1 as [st | st i st1 l st2 (_ & _ & Hlog) Hs IH]; simpl.
  - now rewrite app_nil_r.
  - rewrite IH, Hlog, <- app_assoc. reflexivity.
Qed.

Lemma destroy_singular_spec (eng : engine) (st : DestroyState) :
  let names := singular (snapshots (destroy_args st)) in
  let st' := destroy_singular eng st in
  destroy_args st' = destroy_args st /\
  (NoDup (dict_keys (results st)) -> NoDup (dict_keys (results st'))) /\
  (forall x, In x (dict_keys (results st)) -> In x (dict_keys (results st'))) /\
  (forall i, In i names -> In i (dict_keys (results st'))) /\
  log st' = log st ++ match names with
                      | [] => []
                      | _ :: _ => [destroy_snapshots names]
                      end.
Proof.
  unfold destroy_singular.
  destruct (singular (snapshots (destroy_args st))) as [|n names] eqn:E; cbv zeta.
  - rewrite app_nil_r. repeat split; auto. intros i [].
  - destruct (eng (log st) _); unfold record_all; cbn [results destroy_args log];
      (repeat split;
       [ apply dict_keys_update_NoDup
       | intros x; apply dict_keys_update_mono
       | intros i; apply dict_keys_update_in ]).
Qed.

Section RunFacts.

Variable repr : string -> string.
Variable eng : engine.
Hypothesis Heng : zfs_engine eng.

(** The run returns, and is made of the iterations of its two loops
    around the batched call. *)
Lemma destroy_impl_steps (plan : DestroyPlan) :
  exists st1 st2,
    __destroy_fs_or_vols repr eng (initial plan) = Returned st1 /\
    steps fs_or_vol_step (initial plan) (sorted_reverse (fs_or_vols plan)) st1 /\
    destroy_args st1 = plan /\
    steps channel_program_step (destroy_singular eng st1)
      (channel_programs (snapshots plan)) st2 /\
    destroy_impl repr eng plan = Returned (results st2, log st2).
Proof.
  unfold destroy_impl, __destroy_fs_or_vols, __destroy_snapshots. fold (initial plan).
  destruct (for_each_steps (destroy_fs_or_vol repr eng) fs_or_vol_step
              (destroy_fs_or_vol_step repr eng Heng)
              (sorted_reverse (fs_or_vols plan)) (initial plan)) as (st1 & H1 & S1).
  assert (Ha : destroy_args st1 = plan)
    by apply (steps_keys _ _ _ _ _ fs_or_vol_step_sets_key S1).
  destruct (for_each_steps (destroy_channel_program eng) channel_program_step
              (destroy_channel_program_step eng)
              (channel_programs (snapshots plan)) (destroy_singular eng st1))
    as (st2 & H2 & S2).
  exists st1, st2. cbn [destroy_args initial] in *.
  rewrite H1, Ha, H2. auto.
Qed.

(** Every step of the plan is carried out and leaves its key in the
    results, each key once. *)
Lemma destroy_impl_complete (plan : DestroyPlan) :
  exists res calls,
    destroy_impl repr eng plan = Returned (res, calls) /\
    NoDup (dict_keys res) /\
    (forall i, In i (fs_or_vols plan) ->
       In i (dict_keys res) /\ In (open_resource i) calls) /\
    (forall i, In i (singular (snapshots plan)) -> In i (dict_keys res)) /\
    (singular (snapshots plan) <> [] ->
       In (destroy_snapshots (singular (snapshots plan))) calls) /\
    (forall ca, In ca (channel_programs (snapshots plan)) ->
       In (ca_path ca) (dict_keys res) /\
       In (run_channel_program (ca_pool_name ca) DESTROY_SNAPSHOTS
             (ca_script_arguments_dict ca) (ca_readonly ca)) calls).
Proof.
  destruct (destroy_impl_steps plan) as (st1 & st2 & _ & S1 & Ha & S2 & ->).
  exists (results st2), (log st2). split; [reflexivity|].
  destruct (steps_keys _ _ _ _ _ fs_or_vol_step_sets_key S1) as (_ & N1 & _ & K1).
  destruct (steps_fs_or_vol_opened _ _ _ S1) as (O1 & _).
  destruct (destroy_singular_spec eng st1) as (_ & Ns & Ms & Ks & Ls).
  destruct (steps_keys _ _ _ _ _ channel_program_step_sets_key S2) as (_ & N2 & M2 & K2).
  pose proof (steps_channel_program_log _ _ _ S2) as L2.
  rewrite Ha in Ks, Ls. cbn [initial results log] in *.
  split; [|split; [|split; [|split]]].
  - apply N2, Ns, N1. constructor.
  - intros i Hi.
    assert (Hi' : In i (sorted_reverse (fs_or_vols plan)))
      by (eapply Permutation_in; [apply sorted_reverse_perm | exact Hi]).
    split; [auto|].
    rewrite L2, Ls. apply in_or_app. left. apply in_or_app. left.
    apply opened_In. rewrite O1. exact Hi'.
  - auto.
  - intros Hne. rewrite L2, Ls. apply in_or_app. left. apply in_or_app. right.
    destruct (singular (snapshots plan)); [congruence | now left].
  - intros ca Hca. split; [auto|].
    rewrite L2. apply in_or_app. right.
    apply (in_map (fun i => run_channel_program (ca_pool_name i) DESTROY_SNAPSHOTS
                              (ca_script_arguments_dict i) (ca_readonly i))).
    exact Hca.
Qed.

End RunFacts.

(** ** The sample engines *)

Lemma engine_ok_zfs : zfs_engine engine_ok.
Proof. split; intros; intros h e H; discriminate. Qed.

Lemma engine_failing_zfs : zfs_engine engine_failing.
Proof.
  split; intros; intros h e H; simpl in H; injection H as <-; eauto.
Qed.

(** ** Paths that are refused *)

Section Refusals.

Variable has_internal_path : string -> bool.
Variable repr : string -> string.

(** The first loop stops at the first path that raises. *)
Lemma classify_paths_raise d pre x post e fs st :
  Forall (fun p => exists k, classify has_internal_path repr d p = Ok k) pre ->
  classify has_internal_path repr d x = Raise e ->
  classify_paths has_internal_path repr d (pre ++ x :: post) fs st = Raise e.
Proof.
  intros Hpre Hx. revert fs st.
  induction Hpre as [|p pre (k & Hk) _ IH]; intros fs st; simpl.
  - now rewrite Hx.
  - rewrite Hk. simpl. destruct k; apply IH.
Qed.

Lemma validate_raise d pre x post e :
  paths d = pre ++ x :: post ->
  Forall (fun p => exists k, classify has_internal_path repr d p = Ok k) pre ->
  classify has_internal_path repr d x = Raise e ->
  validate_and_parse_destroy_args has_internal_path repr d = Raise e.
Proof.
  intros Hp Hpre Hx. unfold validate_and_parse_destroy_args.
  rewrite Hp. destruct (pre ++ x :: post) eqn:E.
  - now destruct pre.
  - rewrite <- E, (classify_paths_raise d pre x post e [] [] Hpre Hx). reflexivity.
Qed.

(** A path with no slash in it is never accepted. *)
Lemma classify_no_slash d p :
  PyStr.contains "/" p = false ->
  classify has_internal_path repr d p = Raise IndexError \/
  exists msg, classify has_internal_path repr d p = Raise (ValidationError schema msg).
Proof.
  intros H. unfold classify.
  destruct (PyStr.first p); [|now left].
  destruct (PyStr.last p); [|now left]. right.
  destruct (_ || _); [eauto|].
  destruct (PyStr.contains "#" p); [eauto|].
  rewrite H. simpl. destruct (_ && _); eauto.
Qed.

End Refusals.

(** C10. A destroy request whose list of paths holds the empty string,
    the paths before it being accepted, does not end in a
    [ValidationError]: taking the first character of the empty path
    raises [IndexError], out of validation and out of the service
    method, before the engine is asked anything. *)
Theorem C10_empty_path_raises_IndexError
    (has_internal_path : string -> bool) (repr : string -> string) (eng : engine)
    (d : DestroyArgs) (pre post : list string) :
  paths d = pre ++ "" :: post ->
  Forall (fun p => exists k, classify has_internal_path repr d p = Ok k) pre ->
  classify has_internal_path repr d "" = Raise IndexError /\
  validate_and_parse_destroy_args has_internal_path repr d = Raise IndexError /\
  service_destroy_impl repr eng has_internal_path d = Raised IndexError [].
Proof.
  intros Hp Hpre.
  assert (Hc : classify has_internal_path repr d "" = Raise IndexError) by reflexivity.
  pose proof (validate_raise _ _ d pre "" post IndexError Hp Hpre Hc) as Hv.
  repeat split; try assumption.
  unfold service_destroy_impl. now rewrite Hv.
Qed.

Lemma C10_witness :
  let d := request ["tank/a"; ""; "tank/b"] false in
  validate_and_parse_destroy_args no_internal_path quote d = Raise IndexError /\
  service_destroy_impl quote engine_ok no_internal_path d = Raised IndexError [].
Proof.
  intros d.
  apply (C10_empty_path_raises_IndexError no_internal_path quote engine_ok d
           ["tank/a"] ["tank/b"]).
  - reflexivity.
  - constructor; [|constructor]. exists FsOrVol. reflexivity.
Defined.

(** C3. The snapshot [tank@snap] at the root of a pool, asked for with
    [recursive] false, is refused like a bare pool name: classification
    raises the [ValidationError] about pools, whatever the other flags and
    the protected paths are, and the engine is not called. *)
Theorem C3_pool_root_snapshot_is_rejected
    (has_internal_path : string -> bool) (repr : string -> string) (eng : engine)
    (f df adip : bool) :
  let d := {| paths := ["tank@snap"]; recursive := false; force := f;
              defer := df; allow_destroy_internal_paths := adip |} in
  let e := ValidationError schema
             "Destroying zpools is not allowed. Use zfs.resource.destroy_pools" in
  PyStr.contains "/" "tank@snap" = false /\
  PyStr.contains "@" "tank@snap" = true /\
  classify has_internal_path repr d "tank@snap" = Raise e /\
  service_destroy_impl repr eng has_internal_path d = Raised e [].
Proof. repeat split. Qed.

(** C2. For the request [["tank/a@s1"; "tank/a@s2"]] with [recursive]
    false, the batch handed to the engine is the last requested path
    twice: [tank/a@s1] is in no call, and has no entry in the results. *)
Theorem C2_batch_holds_the_last_path :
  let d := request ["tank/a@s1"; "tank/a@s2"] false in
  validate_and_parse_destroy_args no_internal_path quote d =
    Ok {| data := d;
          fs_or_vols := [];
          snapshots := {| singular := ["tank/a@s2"; "tank/a@s2"];
                          channel_programs := [] |} |} /\
  service_destroy_impl quote engine_ok no_internal_path d =
    Returned ([("tank/a@s2", None)],
              [destroy_snapshots ["tank/a@s2"; "tank/a@s2"]]).
Proof. split; reflexivity. Qed.

(** ** Overlapping paths *)

Lemma overlap_raises (d : DestroyArgs) (fs : list string) :
  recursive d = true ->
  (exists p q, In p fs /\ In q fs /\ overlaps p q) ->
  exists k v,
    In k fs /\ v = filter (relative_subpath k) fs /\ v <> [] /\
    (forall q, In q v <-> In q fs /\ overlaps k q) /\
    check_overlap d fs =
      Raise (ValidationError schema
               (overlap_err ++ " (" ++ k ++ " overlaps with "
                  ++ PyStr.join ", " v ++ ")")).
Proof.
  intros Hrec Hex. unfold check_overlap. rewrite Hrec.
  destruct (group_paths_by_parents fs) as [|[k v] g] eqn:Hg.
  - apply group_paths_by_parents_nil in Hg. contradiction.
  - assert (Hin : In (k, v) (group_paths_by_parents fs)) by (rewrite Hg; now left).
    apply group_paths_by_parents_In in Hin. destruct Hin as (Hk & Hv & Hn & Hq).
    exists k, v. auto.
Qed.

Lemma validate_overlap_raises
    (has_internal_path : string -> bool) (repr : string -> string)
    (d : DestroyArgs) (fs st : list string) (e : exn) :
  classify_paths has_internal_path repr d (paths d) [] [] = Ok (fs, st) ->
  paths d <> [] ->
  check_overlap d fs = Raise e ->
  validate_and_parse_destroy_args has_internal_path repr d = Raise e.
Proof.
  intros Hc Hne Ho. unfold validate_and_parse_destroy_args.
  destruct (paths d) eqn:Hp; [congruence|]. cbv beta iota.
  rewrite Hc. cbn [bind]. rewrite Ho. reflexivity.
Qed.

Lemma no_overlap_returns (d : DestroyArgs) (fs : list string) :
  (~ exists p q, In p fs /\ In q fs /\ overlaps p q) ->
  group_paths_by_parents fs = [] /\ check_overlap d fs = Ok tt.
Proof.
  intros H. apply group_paths_by_parents_nil in H.
  unfold check_overlap. rewrite H. now destruct (recursive d).
Qed.

(** ** Permutations of three elements *)

Lemma Permutation_three {A} (a b c : A) (l : list A) :
  Permutation [a; b; c] l ->
  In l [[a; b; c]; [a; c; b]; [b; a; c]; [c; a; b]; [b; c; a]; [c; b; a]].
Proof.
  intros H.
  destruct (Permutation_vs_cons_inv (Permutation_sym H)) as (l1 & l2 & ->).
  apply Permutation_cons_app_inv in H.
  apply Permutation_length_2_inv in H.
  destruct H as [H|H]; destruct l1 as [|x [|y [|z l1]]]; simpl in H;
    inversion H; subst; simpl; tauto.
Qed.

(** ** The order of the individual steps *)

Section Order.

Variable repr : string -> string.
Variable eng : engine.
Hypothesis Heng : zfs_engine eng.

(** The datasets and volumes are opened in the order [sorted] gives, and
    the resources of the successive calls never go up in that order. *)
Lemma destroy_fs_or_vols_order (plan : DestroyPlan) :
  exists st',
    __destroy_fs_or_vols repr eng (initial plan) = Returned st' /\
    opened (log st') = sorted_reverse (fs_or_vols plan) /\
    descending (targets (log st')) /\
    (forall c, In c (log st') ->
       exists i, In i (fs_or_vols plan) /\
         exists ext, In ext (fs_or_vol_calls (data plan) i) /\ In c ext).
Proof.
  destruct (destroy_impl_steps repr eng Heng plan) as (st1 & _ & H1 & S1 & _).
  exists st1. split; [assumption|].
  destruct (steps_fs_or_vol_opened _ _ _ S1) as [Ho Hc].
  split; [exact Ho|]. split.
  - apply (steps_fs_or_vol_targets _ _ _ S1).
    + apply sorted_reverse_descending.
    + constructor.
    + intros t i [].
  - intros c Hin. destruct (Hc c Hin) as [[]|(i & Hi & ext & He & Hce)].
    exists i. split; [|eauto].
    eapply Permutation_in; [symmetry; apply sorted_reverse_perm | exact Hi].
Qed.

End Order.



(** ** What each step records *)

Lemma dict_get_update_keep {V} (names : list string) (v : V) (d : dict V) (i : string) :
  dict_get i d = Some v ->
  dict_get i (fold_left (fun r n => dict_set n v r) names d) = Some v.
Proof.
  revert d. induction names as [|n names IH]; simpl; intros d H; [assumption|].
  apply IH. destruct (String.eqb_spec i n) as [->|Hne].
  - apply dict_get_set_same.
  - now rewrite dict_get_set_other.
Qed.

Lemma dict_get_update_in {V} (names : list string) (v : V) (d : dict V) (i : string) :
  In i names ->
  dict_get i (fold_left (fun r n => dict_set n v r) names d) = Some v.
Proof.
  revert d. induction names as [|n names IH]; simpl; intros d H; [contradiction|].
  destruct H as [->|H]; [|now apply IH].
  apply dict_get_update_keep, dict_get_set_same.
Qed.

Section Capture.

Variable repr : string -> string.
Variable eng : engine.

(** The batched call: its outcome is recorded for every member. *)
Lemma destroy_singular_capture (st : DestroyState) (i : string) :
  let names := singular (snapshots (destroy_args st)) in
  In i names ->
  dict_get i (results (destroy_singular eng st)) =
    Some (option_map exn_str (eng (log st) (destroy_snapshots names))).
Proof.
  unfold destroy_singular.
  destruct (singular (snapshots (destroy_args st))) as [|n names] eqn:E; cbv zeta;
    [contradiction|].
  intros Hi. destruct (eng (log st) _); unfold record_all; cbn [results option_map];
    now apply dict_get_update_in.
Qed.

(** A channel program: its outcome is recorded for its path. *)
Lemma destroy_channel_program_capture (st : DestroyState) (ca : channel_args) :
  let c := run_channel_program (ca_pool_name ca) DESTROY_SNAPSHOTS
             (ca_script_arguments_dict ca) (ca_readonly ca) in
  exists st',
    destroy_channel_program eng st ca = Returned st' /\
    log st' = log st ++ [c] /\
    dict_get (ca_path ca) (results st') = Some (option_map exn_str (eng (log st) c)).
Proof.
  unfold destroy_channel_program.
  destruct (eng (log st) _); eexists; (split; [reflexivity|]);
    unfold record; cbn [results log option_map]; (split; [reflexivity|]);
    apply dict_get_set_same.
Qed.

(** [open_resource] is only guarded against [ZFSException]: anything else
    it raised would leave the loop. *)
Lemma destroy_fs_or_vol_propagates (st : DestroyState) (i msg : string) :
  eng (log st) (open_resource i) = Some (Exception msg) ->
  destroy_fs_or_vol repr eng st i = Raised (Exception msg) (log st ++ [open_resource i]).
Proof. intros H. unfold destroy_fs_or_vol. now rewrite H. Qed.

Hypothesis Heng : zfs_engine eng.

(** A dataset or volume: the first call that fails ends the iteration,
    and what is recorded tells which one it was. *)
Lemma destroy_fs_or_vol_cases (st : DestroyState) (i : string) :
  let args := data (destroy_args st) in
  let o := open_resource i in
  let u := unmount i (force args) (recursive args) in
  let c := destroy_call args i in
  exists st',
    destroy_fs_or_vol repr eng st i = Returned st' /\
    ((exists code msg,
        eng (log st) o = Some (ZFSException code msg) /\
        log st' = log st ++ [o] /\
        dict_get i (results st') =
          Some (Some (if is_ZFSError_NOENT code
                      then (repr i ++ " does not exist")%string
                      else msg))) \/
     (eng (log st) o = None /\
      exists code msg,
        eng (log st ++ [o]) u = Some (ZFSException code msg) /\
        log st' = log st ++ [o; u] /\
        dict_get i (results st') =
          Some (Some (if is_ZFSError_BUSY code && negb (recursive args)
                      then ("Failed to unmount, does " ++ repr i ++ " have children?")%string
                      else msg))) \/
     (eng (log st) o = None /\
      eng (log st ++ [o]) u = None /\
      log st' = log st ++ [o; u; c] /\
      dict_get i (results st') =
        Some (option_map exn_str (eng (log st ++ [o; u]) c)))).
Proof.
  destruct Heng as [Hopen Hunmount]. cbv zeta.
  unfold destroy_fs_or_vol.
  destruct (eng (log st) (open_resource i)) as [e|] eqn:E1.
  - destruct (Hopen _ _ _ E1) as (code & msg & ->).
    destruct (is_ZFSError_NOENT code) eqn:En; eexists; (split; [reflexivity|]);
      left; exists code, msg; rewrite En; unfold record; cbn [results log];
      (split; [reflexivity|]); (split; [reflexivity|]); apply dict_get_set_same.
  - destruct (eng (log st ++ [open_resource i]) (unmount i _ _)) as [e|] eqn:E2.
    + destruct (Hunmount _ _ _ _ _ E2) as (code & msg & ->).
      destruct (is_ZFSError_BUSY code && negb _) eqn:Eb; eexists;
        (split; [reflexivity|]); right; left; (split; [reflexivity|]);
        exists code, msg; rewrite Eb; unfold record; cbn [results log];
        rewrite <- app_assoc; (split; [reflexivity|]); (split; [reflexivity|]);
        apply dict_get_set_same.
    + rewrite <- app_assoc. cbn [app].
      destruct (eng _ (destroy_call _ i)) eqn:E3; eexists; (split; [reflexivity|]);
        right; right; unfold record; cbn [results log option_map];
        rewrite <- app_assoc; cbn [app];
        (split; [reflexivity|]); (split; [reflexivity|]); (split; [reflexivity|]);
        apply dict_get_set_same.
Qed.

End Capture.

(** ** Recursive requests *)





(** ** Nesting *)

(** C8. Whatever the order in which the three records [tank], [tank/a]
    and [tank/a/b] (each of pool [tank], without children) come,
    [nest_paths] returns the one root [tank], whose only child is
    [tank/a], whose only child is [tank/a/b]. *)
Theorem C8_nest_paths_permutation (flat_list : list resource) :
  Permutation tank_nodes flat_list ->
  nest_paths flat_list = tank_tree.
Proof.
  intros H. apply Permutation_three in H. simpl in H.
  destruct H as [<-|[<-|[<-|[<-|[<-|[<-|[]]]]]]]; reflexivity.
Qed.

Lemma C8_witness :
  nest_paths [Resource "tank/a/b" "tank" []; Resource "tank" "tank" [];
              Resource "tank/a" "tank" []] = tank_tree.
Proof.
  apply C8_nest_paths_permutation. unfold tank_nodes.
  apply Permutation_sym, Permutation_cons_app with (l1 := [_; _]).
  apply Permutation_refl.
Defined.

(** ** Query validation *)

Lemma check_no_snapshot_spec (ps : list string) :
  (check_no_snapshot ps = Ok tt /\
   forall p, In p ps -> PyStr.contains "@" p = false) \/
  ((exists p, In p ps /\ PyStr.contains "@" p = true) /\
   check_no_snapshot ps =
     Raise (ValidationError query_schema
              "Set `get_snapshots = True` when wanting to query snapshot information.")).
Proof.
  induction ps as [|x ps IH]; simpl.
  - left. split; [reflexivity | intros p []].
  - destruct (PyStr.contains "@" x) eqn:E.
    + right. split; [|reflexivity]. exists x. auto.
    + destruct IH as [[Hok Hall]|[(p & Hp & Hc) Hr]].
      * left. split; [assumption|]. intros p [<-|Hp]; auto.
      * right. split; [|assumption]. exists p. auto.
Qed.

Lemma group_not_nil (ps : list string) :
  (exists p q, In p ps /\ In q ps /\ strict_ancestor p q) ->
  exists item rest, group_paths_by_parents ps = item :: rest.
Proof.
  intros (p & q & Hp & Hq & Hs).
  destruct (group_paths_by_parents ps) as [|item rest] eqn:E; [|eauto].
  apply group_paths_by_parents_nil in E. exfalso. apply E.
  exists p, q. auto using strict_ancestor_overlaps.
Qed.

(** C9. For every query made with arguments, a [ValidationError] is
    raised, and the engine is not asked anything, whenever one of the
    requested paths holds an [@], and whenever [get_children] is true and
    one of the requested paths is a strict ancestor, component by
    component, of another. *)
Theorem C9_query_validation
    (base : QueryArgs) (engine_query : QueryArgs -> result (list resource))
    (d : QueryData) :
  let final := merge base d in
  (exists p, In p (q_paths final) /\ PyStr.contains "@" p = true) \/
  (q_get_children final = true /\
   exists p q, In p (q_paths final) /\ In q (q_paths final) /\ strict_ancestor p q) ->
  exists msg,
    validate_query_args final = Raise (ValidationError query_schema msg) /\
    service_query_impl base engine_query (Some d) =
      Raised (ValidationError query_schema msg) [].
Proof.
  intros final H.
  assert (Hv : exists msg,
             validate_query_args final = Raise (ValidationError query_schema msg)).
  { unfold validate_query_args.
    destruct (check_no_snapshot_spec (q_paths final)) as [[Hok Hall]|[_ Hr]].
    - rewrite Hok. cbn [bind].
      destruct H as [(p & Hp & Hc)|[Hg Hex]].
      + rewrite (Hall p Hp) in Hc. discriminate.
      + rewrite Hg. destruct (group_not_nil _ Hex) as (item & rest & ->). eauto.
    - rewrite Hr. cbn [bind]. eauto. }
  destruct Hv as [msg Hv]. exists msg. split; [assumption|].
  unfold service_query_impl. fold final. now rewrite Hv.
Qed.

Lemma C9_witness :
  let d := {| d_paths := Some ["tank/a"; "tank/a/b"];
              d_properties := None;
              d_get_children := Some true;
              d_get_snapshots := None;
              d_nest_results := None |} in
  exists msg,
    validate_query_args (merge query_defaults d) =
      Raise (ValidationError query_schema msg) /\
    service_query_impl query_defaults (fun _ => Ok []) (Some d) =
      Raised (ValidationError query_schema msg) [].
Proof.
  intros d.
  apply (C9_query_validation query_defaults (fun _ => Ok []) d).
  right. split; [reflexivity|].
  exists "tank/a", "tank/a/b". simpl.
  split; [auto|]. split; [auto|]. split.
  - split; [reflexivity|]. exists ["b"]. reflexivity.
  - discriminate.
Defined.

(** * Further properties *)

(** ** What validation accepts *)

Section Acceptance.

Variable has_internal_path : string -> bool.
Variable repr : string -> string.

Lemma split_two (p src nm : string) :
  PyStr.split "@" p = [src; nm] ->
  (2 <? length (PyStr.split "@" p))%nat = false /\
  hd "" (PyStr.split "@" p) = src /\ last (PyStr.split "@" p) "" = nm.
Proof. intros ->. repeat split. Qed.

(** A path is accepted exactly when it is well formed. *)
Lemma classify_Ok_iff d p :
  (exists k, classify has_internal_path repr d p = Ok k) <->
  well_formed has_internal_path d p.
Proof.
  unfold classify, well_formed.
  destruct (PyStr.first p) as [c0|]; [|split; [intros [k H]; discriminate|]];
    [|intros ((c0 & cl & H & _) & _); discriminate].
  destruct (PyStr.last p) as [cl|]; [|split; [intros [k H]; discriminate|]];
    [|intros ((c0' & cl & _ & H & _) & _); discriminate].
  destruct (Ascii.eqb_spec c0 "/") as [->|Hc0]; cbn [orb].
  { split; [intros [k H]; discriminate|].
    intros ((x & y & Hx & _ & Hn & _) & _). injection Hx as <-. congruence. }
  destruct (Ascii.eqb_spec cl "/") as [->|Hcl].
  { split; [intros [k H]; discriminate|].
    intros ((x & y & _ & Hy & _ & Hn) & _). injection Hy as <-. congruence. }
  destruct (PyStr.contains "#" p).
  { split; [intros [k H]; discriminate | intros (_ & H & _); discriminate]. }
  destruct (PyStr.contains "/" p); cbn [negb].
  2:{ split; [intros [k H]; destruct (_ && _); discriminate
             | intros (_ & _ & H & _); discriminate]. }
  destruct (allow_destroy_internal_paths d); cbn [negb andb].
  - destruct (PyStr.contains "@" p) eqn:Hat.
    + destruct (2 <? length (PyStr.split "@" p))%nat eqn:Hlen.
      { split; [intros [k H]; discriminate|].
        intros (_ & _ & _ & _ & H). destruct (H eq_refl) as (src & nm & Hs & _).
        rewrite Hs in Hlen. discriminate. }
      apply split_length_contains in Hat. apply Nat.ltb_ge in Hlen.
      destruct (PyStr.split "@" p) as [|x [|y [|z l]]] eqn:Hs; simpl in Hat, Hlen; try lia.
      cbn [hd last].
      destruct (PyStr.blank x) eqn:Hx.
      { split; [intros [k H]; discriminate|].
        intros (_ & _ & _ & _ & H). destruct (H eq_refl) as (src & nm & E & Hb & _).
        injection E as <- <-. congruence. }
      destruct (PyStr.blank y) eqn:Hy.
      { split; [intros [k H]; discriminate|].
        intros (_ & _ & _ & _ & H). destruct (H eq_refl) as (src & nm & E & _ & Hb).
        injection E as <- <-. congruence. }
      split; [intros _|eauto]. repeat split; eauto 10.
    + split; [intros _|eauto]. repeat split; eauto 10. discriminate.
  - destruct (has_internal_path p).
    { split; [intros [k H]; discriminate|].
      intros (_ & _ & _ & [H|H] & _); discriminate. }
    destruct (PyStr.contains "@" p) eqn:Hat.
    + destruct (2 <? length (PyStr.split "@" p))%nat eqn:Hlen.
      { split; [intros [k H]; discriminate|].
        intros (_ & _ & _ & _ & H). destruct (H eq_refl) as (src & nm & Hs & _).
        rewrite Hs in Hlen. discriminate. }
      apply split_length_contains in Hat. apply Nat.ltb_ge in Hlen.
      destruct (PyStr.split "@" p) as [|x [|y [|z l]]] eqn:Hs; simpl in Hat, Hlen; try lia.
      cbn [hd last].
      destruct (PyStr.blank x) eqn:Hx.
      { split; [intros [k H]; discriminate|].
        intros (_ & _ & _ & _ & H). destruct (H eq_refl) as (src & nm & E & Hb & _).
        injection E as <- <-. congruence. }
      destruct (PyStr.blank y) eqn:Hy.
      { split; [intros [k H]; discriminate|].
        intros (_ & _ & _ & _ & H). destruct (H eq_refl) as (src & nm & E & _ & Hb).
        injection E as <- <-. congruence. }
      split; [intros _|eauto]. repeat split; eauto 10.
    + split; [intros _|eauto]. repeat split; eauto 10. discriminate.
Qed.

(** The list an accepted path goes to is told by its [@]. *)
Lemma classify_kind d p k :
  classify has_internal_path repr d p = Ok k ->
  k = if PyStr.contains "@" p then Snapshot else FsOrVol.
Proof.
  unfold classify.
  destruct (PyStr.first p); [|discriminate].
  destruct (PyStr.last p); [|discriminate].
  destruct (_ || _); [discriminate|].
  destruct (PyStr.contains "#" p); [discriminate|].
  destruct (negb (PyStr.contains "/" p)).
  { destruct (_ && _); discriminate. }
  destruct (_ && _); [discriminate|].
  destruct (PyStr.contains "@" p); [|congruence].
  destruct (_ <? _)%nat; [discriminate|].
  destruct (PyStr.blank _); [discriminate|].
  destruct (PyStr.blank _); [discriminate|]. congruence.
Qed.

(** The first loop returns exactly when every path is accepted, and then
    splits the paths on their [@], in the order of the request. *)
Lemma classify_paths_filter d ps fs st :
  Forall (well_formed has_internal_path d) ps ->
  classify_paths has_internal_path repr d ps fs st =
    Ok (fs ++ filter is_fs_or_vol_path ps, st ++ filter is_snapshot_path ps).
Proof.
  intros H. revert fs st.
  induction H as [|p ps Hp _ IH]; intros fs st; simpl.
  - now rewrite !app_nil_r.
  - apply classify_Ok_iff in Hp. destruct Hp as [k Hk].
    rewrite Hk. cbn [bind]. apply classify_kind in Hk.
    unfold is_fs_or_vol_path, is_snapshot_path.
    destruct (PyStr.contains "@" p); subst k; cbn [negb];
      rewrite IH, <- app_assoc; reflexivity.
Qed.

Lemma classify_paths_well_formed d ps fs st r :
  classify_paths has_internal_path repr d ps fs st = Ok r ->
  Forall (well_formed has_internal_path d) ps.
Proof.
  revert fs st. induction ps as [|p ps IH]; intros fs st; simpl; [constructor|].
  destruct (classify has_internal_path repr d p) as [k|e] eqn:Hk; [|discriminate].
  cbn [bind]. intros H. constructor.
  - apply classify_Ok_iff. eauto.
  - destruct k; eapply IH; exact H.
Qed.

End Acceptance.

(** X1. Validation returns a plan exactly when the request names at
    least one path, every path is well formed (it does not begin or end
    with a slash, has no [#], has a slash, is not a protected path unless
    these are allowed, and, if it has an [@], has one [@] with something
    that is not blank on both sides) and, when [recursive] is set, no two
    of the dataset and volume paths overlap. *)
Theorem X1_validation_accepts_iff
    (has_internal_path : string -> bool) (repr : string -> string) (d : DestroyArgs) :
  (exists plan, validate_and_parse_destroy_args has_internal_path repr d = Ok plan) <->
  paths d <> [] /\
  Forall (well_formed has_internal_path d) (paths d) /\
  (recursive d = true ->
   ~ exists p q, In p (filter is_fs_or_vol_path (paths d)) /\
                 In q (filter is_fs_or_vol_path (paths d)) /\ overlaps p q).
Proof.
  split.
  - intros [plan Hv].
    destruct (validate_inv _ _ _ _ Hv) as (st & Hne & Hc & Ho & _).
    pose proof (classify_paths_well_formed _ _ _ _ _ _ _ Hc) as Hwf.
    rewrite (classify_paths_filter _ _ _ _ [] [] Hwf) in Hc. injection Hc as Hfs _.
    simpl in Hfs. rewrite Hfs.
    split; [assumption|]. split; [assumption|].
    intros Hrec Hex. destruct (overlap_raises d _ Hrec Hex) as (k & v & _ & _ & _ & _ & Hr).
    congruence.
  - intros (Hne & Hwf & Hov).
    pose proof (classify_paths_filter has_internal_path repr d _ [] [] Hwf) as Hc.
    simpl in Hc.
    assert (Ho : check_overlap d (filter is_fs_or_vol_path (paths d)) = Ok tt).
    { unfold check_overlap. destruct (recursive d) eqn:Hrec; [|reflexivity].
      specialize (Hov eq_refl). apply group_paths_by_parents_nil in Hov.
      now rewrite Hov. }
    destruct (validate_returns _ _ d _ _ Hne Hc Ho) as (snaps & _ & Hv). eauto.
Qed.

Lemma validated_fs_or_vols
    (has_internal_path : string -> bool) (repr : string -> string)
    (d : DestroyArgs) (plan : DestroyPlan) :
  validate_and_parse_destroy_args has_internal_path repr d = Ok plan ->
  fs_or_vols plan = filter is_fs_or_vol_path (paths d) /\ data plan = d.
Proof.
  intros Hv. destruct (validate_inv _ _ _ _ Hv) as (st & _ & Hc & _ & _ & Hd).
  pose proof (classify_paths_well_formed _ _ _ _ _ _ _ Hc) as Hwf.
  rewrite (classify_paths_filter _ _ _ _ [] [] Hwf) in Hc. injection Hc as Hfs _.
  simpl in Hfs. auto.
Qed.

(** X2. In a plan that validation returns, the datasets and volumes are
    the requested paths without [@], in the order and with the
    repetitions of the request. *)
Theorem X2_fs_or_vols_are_the_paths_without_at
    (has_internal_path : string -> bool) (repr : string -> string)
    (d : DestroyArgs) (plan : DestroyPlan) :
  validate_and_parse_destroy_args has_internal_path repr d = Ok plan ->
  fs_or_vols plan = filter is_fs_or_vol_path (paths d) /\ data plan = d.
Proof. apply validated_fs_or_vols. Qed.

Lemma X2_witness :
  let d := request ["tank/b"; "tank/y@*"; "tank/a"; "tank/b"] false in
  exists plan,
    validate_and_parse_destroy_args no_internal_path quote d = Ok plan /\
    fs_or_vols plan = ["tank/b"; "tank/a"; "tank/b"] /\
    fs_or_vols plan = filter is_fs_or_vol_path (paths d) /\ data plan = d.
Proof.
  intros d. eexists. split; [reflexivity|]. split; [reflexivity|].
  apply (X2_fs_or_vols_are_the_paths_without_at no_internal_path quote d).
  reflexivity.
Defined.

(** ** What a plan is made of *)

Lemma join_split (c : ascii) (s : string) :
  PyStr.join (String c "") (PyStr.split c s) = s.
Proof.
  induction s as [|a s IH]; simpl; [reflexivity|].
  destruct (Ascii.eqb_spec a c) as [->|Hne].
  - pose proof (split_length_pos c s) as Hl.
    destruct (PyStr.split c s) as [|h t] eqn:E; [simpl in Hl; lia|].
    cbn [PyStr.join]. simpl. now rewrite <- IH.
  - destruct (PyStr.split c s) as [|h [|h' t]] eqn:E; simpl in *; now rewrite <- IH.
Qed.

Lemma split_one_no_sep (c : ascii) (s y : string) :
  PyStr.split c s = [y] -> y = s /\ PyStr.contains c s = false.
Proof.
  revert y. induction s as [|a s IH]; intros y; simpl.
  - intros H. injection H as <-. auto.
  - destruct (Ascii.eqb a c).
    + intros H. pose proof (split_length_pos c s) as Hl.
      injection H as _ H. rewrite H in Hl. simpl in Hl. lia.
    + destruct (PyStr.split c s) as [|h t] eqn:E.
      * pose proof (split_length_pos c s) as Hl. rewrite E in Hl. simpl in Hl. lia.
      * intros H. injection H as <- ->. destruct (IH h eq_refl) as [-> Hc].
        rewrite Hc. auto.
Qed.

(** Neither side of a string split in two holds the separator. *)
Lemma split_two_no_sep (c : ascii) (p x y : string) :
  PyStr.split c p = [x; y] ->
  PyStr.contains c x = false /\ PyStr.contains c y = false.
Proof.
  revert x. induction p as [|a p IH]; intros x; simpl; [discriminate|].
  destruct (Ascii.eqb a c) eqn:Ea.
  - intros H. injection H as <- H. apply split_one_no_sep in H.
    destruct H as [-> H]. auto.
  - destruct (PyStr.split c p) as [|h t] eqn:E; [discriminate|].
    intros H. injection H as <- ->. destruct (IH h eq_refl) as [Hh Hy].
    simpl. rewrite Ea, Hh. auto.
Qed.

Lemma split_two_join (p src nm : string) :
  PyStr.split "@" p = [src; nm] -> p = (src ++ "@" ++ nm)%string.
Proof.
  intros H. rewrite <- (join_split "@" p) at 1. rewrite H. reflexivity.
Qed.

(** What the second loop adds to the two lists of the snapshots. *)
Lemma parse_snapshots_inv d path fs st snaps snaps' :
  parse_snapshots d path fs st snaps = Ok snaps' ->
  (forall n, In n (singular snaps') ->
     In n (singular snaps) \/ (n = path /\ st <> [] /\ recursive d = false)) /\
  (forall ca, In ca (channel_programs snaps') ->
     In ca (channel_programs snaps) \/
     exists src nm,
       In (ca_path ca) st /\ PyStr.split "@" (ca_path ca) = [src; nm] /\
       ~ In src fs /\ (nm = "*" \/ recursive d = true) /\
       ca_pool_name ca = hd "" (PyStr.split "/" src) /\
       ca_readonly ca = false /\
       ca_script_arguments_dict ca =
         {| sa_recursive := recursive d;
            sa_target := src;
            sa_defer := defer d;
            sa_pattern := if String.eqb nm "*" then None else Some nm |}).
Proof.
  revert snaps. induction st as [|x st IH]; intros snaps; simpl.
  - intros H. injection H as <-. auto.
  - destruct (PyStr.split "@" x) as [|a0 [|b0 [|c0 l0]]] eqn:Hx; try discriminate.
    destruct (PyStr.mem a0 fs) eqn:Hmem.
    + intros H. apply IH in H. destruct H as [Hs Hc]. split.
      * intros n Hn. destruct (Hs n Hn) as [|(-> & Hne & Hr)]; auto.
        right. repeat split; auto. discriminate.
      * intros ca Hca. destruct (Hc ca Hca) as [|(src & nm & Hin & Hrest)]; auto.
        right. exists src, nm. split; [now right | assumption].
    + assert (Hnot : ~ In a0 fs).
      { intros Hin. apply mem_In in Hin. congruence. }
      destruct (negb (String.eqb b0 "*") && negb (recursive d)) eqn:Hsing;
        intros H; apply IH in H; destruct H as [Hs Hc]; cbn [singular channel_programs] in *.
      * apply andb_true_iff in Hsing. destruct Hsing as [_ Hr].
        apply negb_true_iff in Hr. split.
        -- intros n Hn. destruct (Hs n Hn) as [Hin|(-> & Hne & Hr')].
           ++ apply in_app_or in Hin. destruct Hin as [|[<-|[]]]; auto.
              right. repeat split; auto. discriminate.
           ++ right. repeat split; auto. discriminate.
        -- intros ca Hca. destruct (Hc ca Hca) as [|(src & nm & Hin & Hrest)]; auto.
           right. exists src, nm. split; [now right | assumption].
      * split.
        -- intros n Hn. destruct (Hs n Hn) as [|(-> & Hne & Hr)]; auto.
           right. repeat split; auto. discriminate.
        -- intros ca Hca. destruct (Hc ca Hca) as [Hin|(src & nm & Hin & Hrest)].
           ++ apply in_app_or in Hin. destruct Hin as [|[<-|[]]]; auto.
              right. exists a0, b0. cbn [ca_path ca_pool_name ca_readonly
                                          ca_script_arguments_dict].
              split; [now left|]. split; [assumption|]. split; [assumption|].
              split.
              { apply andb_false_iff in Hsing. destruct Hsing as [H|H];
                  apply negb_false_iff in H; [left; now apply String.eqb_eq | now right]. }
              repeat split. now destruct (String.eqb b0 "*").
           ++ right. exists src, nm. split; [now right | assumption].
Qed.

(** X3. In a plan that validation returns, every channel program comes
    from a requested snapshot path [src@name] whose source is not among
    the datasets and volumes, and which is a wildcard or is asked for
    recursively: it is recorded under that path, targets [src] in the
    pool named by the first segment of [src], carries the [recursive] and
    [defer] flags of the request, is not read-only, and has the name as
    its pattern unless the name is the wildcard. *)
Theorem X3_channel_programs_of_a_plan
    (has_internal_path : string -> bool) (repr : string -> string)
    (d : DestroyArgs) (plan : DestroyPlan) (ca : channel_args) :
  validate_and_parse_destroy_args has_internal_path repr d = Ok plan ->
  In ca (channel_programs (snapshots plan)) ->
  exists src nm,
    In (ca_path ca) (paths d) /\
    ca_path ca = (src ++ "@" ++ nm)%string /\
    PyStr.contains "@" src = false /\
    ~ In src (fs_or_vols plan) /\
    (nm = "*" \/ recursive d = true) /\
    ca_pool_name ca = hd "" (PyStr.split "/" src) /\
    ca_readonly ca = false /\
    ca_script_arguments_dict ca =
      {| sa_recursive := recursive d;
         sa_target := src;
         sa_defer := defer d;
         sa_pattern := if String.eqb nm "*" then None else Some nm |}.
Proof.
  intros Hv Hca.
  destruct (validate_inv _ _ _ _ Hv) as (st & _ & Hc & _ & Hs & _).
  destruct (classify_paths_spec _ _ _ _ _ _ _ _ Hc) as [_ Hst].
  destruct (parse_snapshots_inv _ _ _ _ _ _ Hs) as [_ Hcp].
  destruct (Hcp ca Hca) as [[]|(src & nm & Hin & Hsplit & Hrest)].
  exists src, nm.
  apply Hst in Hin. destruct Hin as [[]|[Hin _]].
  split; [assumption|]. split; [now apply split_two_join|]. split; [|assumption].
  now apply (split_two_no_sep "@" _ _ _ Hsplit).
Qed.

Lemma X3_witness :
  let d := request ["tank/x"; "tank/y@weekly"] true in
  exists plan ca src nm,
    validate_and_parse_destroy_args no_internal_path quote d = Ok plan /\
    In ca (channel_programs (snapshots plan)) /\
    ca_path ca = "tank/y@weekly" /\
    In (ca_path ca) (paths d) /\
    ca_path ca = (src ++ "@" ++ nm)%string /\
    PyStr.contains "@" src = false /\
    ~ In src (fs_or_vols plan) /\
    (nm = "*" \/ recursive d = true) /\
    ca_pool_name ca = hd "" (PyStr.split "/" src) /\
    ca_readonly ca = false /\
    ca_script_arguments_dict ca =
      {| sa_recursive := recursive d;
         sa_target := src;
         sa_defer := defer d;
         sa_pattern := if String.eqb nm "*" then None else Some nm |}.
Proof.
  intros d.
  destruct (X3_channel_programs_of_a_plan no_internal_path quote d
              {| data := d;
                 fs_or_vols := ["tank/x"];
                 snapshots :=
                   {| singular := [];
                      channel_programs :=
                        [{| ca_path := "tank/y@weekly";
                            ca_pool_name := "tank";
                            ca_readonly := false;
                            ca_script_arguments_dict :=
                              {| sa_recursive := true;
                                 sa_target := "tank/y";
                                 sa_defer := false;
                                 sa_pattern := Some "weekly" |} |}] |} |}
              {| ca_path := "tank/y@weekly";
                 ca_pool_name := "tank";
                 ca_readonly := false;
                 ca_script_arguments_dict :=
                   {| sa_recursive := true;
                      sa_target := "tank/y";
                      sa_defer := false;
                      sa_pattern := Some "weekly" |} |}
              eq_refl (or_introl eq_refl)) as (src & nm & H).
  eexists. eexists. exists src, nm.
  split; [reflexivity|]. split; [now left|]. split; [reflexivity|]. exact H.
Defined.

(** ** The keys and the calls of a run *)

Lemma dict_keys_update_inv {V} (names : list string) (v : V) (d : dict V) (x : string) :
  In x (dict_keys (fold_left (fun r i => dict_set i v r) names d)) ->
  In x (dict_keys d) \/ In x names.
Proof.
  revert d. induction names as [|n names IH]; simpl; intros d H; [auto|].
  apply IH in H. destruct H as [H|H]; [|auto].
  apply dict_keys_set_inv in H. destruct H; auto.
Qed.

Lemma steps_keys_inv {A} (key : A -> string) P st l st' :
  sets_key key P -> steps P st l st' ->
  forall x, In x (dict_keys (results st')) ->
            In x (dict_keys (results st)) \/ In x (map key l).
Proof.
  intros HP Hs. induction Hs as [st | st i st1 l st2 Hi Hs IH]; intros x Hx; [auto|].
  destruct (HP _ _ _ Hi) as (_ & v & Hres).
  destruct (IH x Hx) as [H|H]; [|simpl; auto].
  rewrite Hres in H. apply dict_keys_set_inv in H. simpl. destruct H; auto.
Qed.

Lemma destroy_singular_keys_inv (eng : engine) (st : DestroyState) (x : string) :
  In x (dict_keys (results (destroy_singular eng st))) ->
  In x (dict_keys (results st)) \/ In x (singular (snapshots (destroy_args st))).
Proof.
  unfold destroy_singular.
  destruct (singular (snapshots (destroy_args st))) as [|n names]; [auto|].
  destruct (eng (log st) _); unfold record_all; cbn [results];
    apply dict_keys_update_inv.
Qed.

Lemma last_In {A} (l : list A) (dflt : A) : l <> [] -> In (last l dflt) l.
Proof.
  induction l as [|x [|y l] IH]; intros H; [congruence | now left |].
  right. apply IH. discriminate.
Qed.

Section RunExact.

Variable repr : string -> string.
Variable eng : engine.
Hypothesis Heng : zfs_engine eng.

(** The keys of the results are those of the steps of the plan, and the
    calls are those of its steps. *)
Lemma destroy_impl_exact (plan : DestroyPlan) :
  exists res calls,
    destroy_impl repr eng plan = Returned (res, calls) /\
    (forall k, In k (dict_keys res) <->
       In k (fs_or_vols plan) \/ In k (singular (snapshots plan)) \/
       In k (map ca_path (channel_programs (snapshots plan)))) /\
    (forall c, In c calls ->
       (exists i, In i (fs_or_vols plan) /\
          exists ext, In ext (fs_or_vol_calls (data plan) i) /\ In c ext) \/
       (singular (snapshots plan) <> [] /\
        c = destroy_snapshots (singular (snapshots plan))) \/
       (exists ca, In ca (channel_programs (snapshots plan)) /\
          c = run_channel_program (ca_pool_name ca) DESTROY_SNAPSHOTS
                (ca_script_arguments_dict ca) (ca_readonly ca))).
Proof.
  destruct (destroy_impl_steps repr eng Heng plan) as (st1 & st2 & _ & S1 & Ha & S2 & ->).
  exists (results st2), (log st2). split; [reflexivity|].
  destruct (steps_keys _ _ _ _ _ fs_or_vol_step_sets_key S1) as (_ & _ & _ & K1).
  pose proof (steps_keys_inv _ _ _ _ _ fs_or_vol_step_sets_key S1) as I1.
  destruct (steps_fs_or_vol_opened _ _ _ S1) as (_ & C1).
  destruct (destroy_singular_spec eng st1) as (_ & _ & Ms & Ks & Ls).
  pose proof (destroy_singular_keys_inv eng st1) as Is.
  destruct (steps_keys _ _ _ _ _ channel_program_step_sets_key S2) as (_ & _ & M2 & K2).
  pose proof (steps_keys_inv _ _ _ _ _ channel_program_step_sets_key S2) as I2.
  pose proof (steps_channel_program_log _ _ _ S2) as L2.
  rewrite Ha in Ks, Ls, Is. cbn [initial results log destroy_args] in *.
  assert (Hperm : forall i, In i (sorted_reverse (fs_or_vols plan)) <-> In i (fs_or_vols plan)).
  { intros i. split; apply Permutation_in;
      [symmetry|]; apply sorted_reverse_perm. }
  split.
  - intros k. split.
    + intros Hk. destruct (I2 k Hk) as [H|H]; [|auto].
      destruct (Is k H) as [H'|H']; [|auto].
      destruct (I1 k H') as [[]|H'']. rewrite map_id in H''. left. now apply Hperm.
    + intros [H|[H|H]].
      * apply M2, Ms, K1. now apply Hperm.
      * apply M2, Ks, H.
      * apply in_map_iff in H. destruct H as (ca & <- & Hca). now apply K2.
  - intros c Hc. rewrite L2, Ls in Hc.
    apply in_app_or in Hc. destruct Hc as [Hc|Hc].
    + apply in_app_or in Hc. destruct Hc as [Hc|Hc].
      * left. destruct (C1 c Hc) as [[]|(i & Hi & ext & He & Hce)].
        exists i. split; [now apply Hperm | eauto].
      * right. left. destruct (singular (snapshots plan)) as [|n names].
        -- destruct Hc.
        -- destruct Hc as [<-|[]]. split; [discriminate | reflexivity].
    + right. right. apply in_map_iff in Hc. destruct Hc as (ca & <- & Hca). eauto.
Qed.

End RunExact.

(** X4. For every request that passes validation, the keys of the result
    are exactly the datasets and volumes of the plan, the members of the
    batch of snapshots and the paths of the channel programs; every one
    of them is a path of the request. *)
Theorem X4_result_keys_are_requested
    (has_internal_path : string -> bool) (repr : string -> string) (eng : engine)
    (d : DestroyArgs) (plan : DestroyPlan) :
  zfs_engine eng ->
  validate_and_parse_destroy_args has_internal_path repr d = Ok plan ->
  exists res calls,
    service_destroy_impl repr eng has_internal_path d = Returned (res, calls) /\
    (forall k, In k (dict_keys res) <->
       In k (fs_or_vols plan) \/ In k (singular (snapshots plan)) \/
       In k (map ca_path (channel_programs (snapshots plan)))) /\
    (forall k, In k (dict_keys res) -> In k (paths d)).
Proof.
  intros Heng Hv.
  destruct (destroy_impl_exact repr eng Heng plan) as (res & calls & Hrun & Hk & _).
  exists res, calls. unfold service_destroy_impl. rewrite Hv.
  split; [assumption|]. split; [assumption|].
  destruct (validate_inv _ _ _ _ Hv) as (st & Hne & Hc & _ & Hs & _).
  destruct (classify_paths_spec _ _ _ _ _ _ _ _ Hc) as [Hfs Hst].
  destruct (parse_snapshots_inv _ _ _ _ _ _ Hs) as [Hsing Hcp].
  intros k Hin. apply Hk in Hin. destruct Hin as [H|[H|H]].
  - apply Hfs in H. destruct H as [[]|[H _]]. assumption.
  - destruct (Hsing k H) as [[]|(-> & _)]. now apply last_In.
  - apply in_map_iff in H. destruct H as (ca & <- & Hca).
    destruct (Hcp ca Hca) as [[]|(src & nm & Hin & _)].
    apply Hst in Hin. destruct Hin as [[]|[Hin _]]. assumption.
Qed.

Lemma X4_witness :
  let d := request ["tank/x"; "tank/y@*"; "tank/x@old"] false in
  exists plan res calls,
    validate_and_parse_destroy_args no_internal_path quote d = Ok plan /\
    service_destroy_impl quote engine_failing no_internal_path d = Returned (res, calls) /\
    (forall k, In k (dict_keys res) <->
       In k (fs_or_vols plan) \/ In k (singular (snapshots plan)) \/
       In k (map ca_path (channel_programs (snapshots plan)))) /\
    (forall k, In k (dict_keys res) -> In k (paths d)).
Proof.
  intros d. eexists.
  assert (Hv : validate_and_parse_destroy_args no_internal_path quote d = Ok _)
    by reflexivity.
  destruct (X4_result_keys_are_requested no_internal_path quote engine_failing d _
              engine_failing_zfs Hv) as (res & calls & H).
  exists res, calls. split; [exact Hv | exact H].
Defined.

(** X5. With an engine that fails by [ZFSException], the only exceptions
    out of the destroy method are those of validation, raised before any
    call; and when the method returns, every call it made bears on the
    request: a dataset or volume is opened, unmounted or destroyed (one by
    one or in bulk) only if its path, without [@], is requested, the batch
    holds requested paths only, and the snapshots of a source are destroyed
    in bulk only if a snapshot of that source is requested. *)
Theorem X5_calls_bear_on_the_request
    (has_internal_path : string -> bool) (repr : string -> string) (eng : engine)
    (d : DestroyArgs) :
  zfs_engine eng ->
  (forall res calls,
     service_destroy_impl repr eng has_internal_path d = Returned (res, calls) ->
     Forall (call_on_request d) calls) /\
  (forall e calls,
     service_destroy_impl repr eng has_internal_path d = Raised e calls ->
     calls = [] /\ validate_and_parse_destroy_args has_internal_path repr d = Raise e).
Proof.
  intros Heng. unfold service_destroy_impl.
  destruct (validate_and_parse_destroy_args has_internal_path repr d)
    as [plan|e0] eqn:Hv.
  2:{ split; intros ? ? H; [discriminate | injection H as <- <-; auto]. }
  destruct (destroy_impl_exact repr eng Heng plan) as (res & calls & Hrun & _ & Hcalls).
  rewrite Hrun. split; [|intros ? ? H; discriminate].
  intros res' calls' H. injection H as <- <-.
  destruct (validate_inv _ _ _ _ Hv) as (st & Hne & Hc & _ & Hs & Hd).
  destruct (validated_fs_or_vols _ _ _ _ Hv) as [Hfs _].
  destruct (classify_paths_spec _ _ _ _ _ _ _ _ Hc) as [_ Hst].
  destruct (parse_snapshots_inv _ _ _ _ _ _ Hs) as [Hsing Hcp].
  apply Forall_forall. intros c Hin.
  destruct (Hcalls c Hin) as [(i & Hi & ext & He & Hce)|[[_ ->]|(ca & Hca & ->)]].
  - rewrite Hfs in Hi. apply filter_In in Hi.
    unfold fs_or_vol_calls, destroy_call in He.
    destruct He as [<-|[<-|[<-|[]]]]; simpl in Hce;
      repeat (destruct Hce as [<-|Hce]; [simpl; try exact Hi|]); try contradiction.
    destruct (recursive (data plan)); simpl; exact Hi.
  - simpl. intros n Hn. destruct (Hsing n Hn) as [[]|(-> & _)]. now apply last_In.
  - simpl. destruct (Hcp ca Hca) as [[]|(src & nm & Hp & Hsplit & _ & _ & _ & _ & Ha)].
    rewrite Ha. simpl. exists (ca_path ca), nm. split; [|assumption].
    apply Hst in Hp. destruct Hp as [[]|[Hp _]]. assumption.
Qed.

Lemma X5_witness :
  let d := request ["tank/x"; "tank/y@*"; "tank/z@daily"] true in
  (forall res calls,
     service_destroy_impl quote engine_ok no_internal_path d = Returned (res, calls) ->
     Forall (call_on_request d) calls) /\
  (forall e calls,
     service_destroy_impl quote engine_ok no_internal_path d = Raised e calls ->
     calls = [] /\ validate_and_parse_destroy_args no_internal_path quote d = Raise e).
Proof.
  intros d.
  apply (X5_calls_bear_on_the_request no_internal_path quote engine_ok d).
  exact engine_ok_zfs.
Defined.

(** X6. Which calls a request gives rise to depends on its [recursive]
    flag. When it is set, no batch of snapshots is planned, and neither
    [destroy_resource] nor [destroy_snapshots] is ever called: all goes
    through channel programs. When it is not set, the only channel
    programs are those that destroy every snapshot of one source, not
    recursively and without a pattern. *)
Theorem X6_calls_by_recursive_flag
    (has_internal_path : string -> bool) (repr : string -> string) (eng : engine)
    (d : DestroyArgs) (plan : DestroyPlan) :
  zfs_engine eng ->
  validate_and_parse_destroy_args has_internal_path repr d = Ok plan ->
  exists res calls,
    service_destroy_impl repr eng has_internal_path d = Returned (res, calls) /\
    (recursive d = true ->
       singular (snapshots plan) = [] /\
       forall c, In c calls ->
         (forall n, c <> destroy_resource n) /\
         (forall names, c <> destroy_snapshots names)) /\
    (recursive d = false ->
       forall c pool_name script a ro,
         In c calls -> c = run_channel_program pool_name script a ro ->
         script = DESTROY_SNAPSHOTS /\ sa_pattern a = None /\ sa_recursive a = false).
Proof.
  intros Heng Hv.
  destruct (destroy_impl_exact repr eng Heng plan) as (res & calls & Hrun & _ & Hcalls).
  exists res, calls. unfold service_destroy_impl. rewrite Hv.
  split; [assumption|].
  destruct (validate_inv _ _ _ _ Hv) as (st & _ & _ & _ & Hs & Hd).
  destruct (parse_snapshots_inv _ _ _ _ _ _ Hs) as [Hsing Hcp].
  split.
  - intros Hrec.
    assert (Hnil : singular (snapshots plan) = []).
    { destruct (singular (snapshots plan)) as [|n l] eqn:E; [reflexivity|].
      destruct (Hsing n) as [[]|(_ & _ & H)]; [now left | congruence]. }
    split; [assumption|]. intros c Hin.
    destruct (Hcalls c Hin) as [(i & Hi & ext & He & Hce)|[[Hne _]|(ca & Hca & ->)]].
    + unfold fs_or_vol_calls, destroy_call in He. rewrite Hd, Hrec in He.
      destruct He as [<-|[<-|[<-|[]]]]; simpl in Hce;
        repeat (destruct Hce as [<-|Hce]; [split; discriminate|]); contradiction.
    + congruence.
    + split; discriminate.
  - intros Hrec c pool_name script a ro Hin ->.
    destruct (Hcalls _ Hin) as [(i & Hi & ext & He & Hce)|[[_ H]|(ca & Hca & H)]].
    + unfold fs_or_vol_calls, destroy_call in He. rewrite Hd, Hrec in He.
      destruct He as [<-|[<-|[<-|[]]]]; simpl in Hce;
        repeat (destruct Hce as [Hce|Hce]; [discriminate|]); contradiction.
    + discriminate.
    + injection H as -> -> -> ->. split; [reflexivity|].
      destruct (Hcp ca Hca) as [[]|(src & nm & _ & _ & _ & Hw & _ & _ & ->)].
      simpl. rewrite Hrec. destruct Hw as [->|Hw]; [auto | congruence].
Qed.

Lemma X6_witness :
  let d := request ["tank/x"; "tank/y@*"; "tank/z@daily"] false in
  exists plan res calls,
    validate_and_parse_destroy_args no_internal_path quote d = Ok plan /\
    service_destroy_impl quote engine_ok no_internal_path d = Returned (res, calls) /\
    (recursive d = true ->
       singular (snapshots plan) = [] /\
       forall c, In c calls ->
         (forall n, c <> destroy_resource n) /\
         (forall names, c <> destroy_snapshots names)) /\
    (recursive d = false ->
       forall c pool_name script a ro,
         In c calls -> c = run_channel_program pool_name script a ro ->
         script = DESTROY_SNAPSHOTS /\ sa_pattern a = None /\ sa_recursive a = false).
Proof.
  intros d. eexists.
  assert (Hv : validate_and_parse_destroy_args no_internal_path quote d = Ok _)
    by reflexivity.
  destruct (X6_calls_by_recursive_flag no_internal_path quote engine_ok d _
              engine_ok_zfs Hv) as (res & calls & H).
  exists res, calls. split; [exact Hv | exact H].
Defined.

(** ** An engine that never fails *)

Lemma steps_all_none {A} (key : A -> string)
    (P : DestroyState -> A -> DestroyState -> Prop) st l st' :
  (forall s i s', P s i s' -> results s' = dict_set (key i) None (results s)) ->
  steps P st l st' ->
  (forall k v, In (k, v) (results st) -> v = None) ->
  forall k v, In (k, v) (results st') -> v = None.
Proof.
  intros HP Hs. induction Hs as [st | st i st1 l st2 Hi Hs IH]; intros Hall; [assumption|].
  apply IH. intros k v Hin. rewrite (HP _ _ _ Hi) in Hin.
  apply dict_set_In in Hin. destruct Hin as [H|H]; [congruence | eauto].
Qed.

Lemma update_all_none (names : list string) (r : dict (option string)) :
  (forall k v, In (k, v) r -> v = None) ->
  forall k v, In (k, v) (fold_left (fun r i => dict_set i None r) names r) -> v = None.
Proof.
  revert r. induction names as [|n names IH]; simpl; intros r Hall; [assumption|].
  apply IH. intros k v Hin. apply dict_set_In in Hin.
  destruct Hin as [H|H]; [congruence | eauto].
Qed.

(** X7. On an engine whose calls all return, every entry of the result
    of a destroy request that passes validation is [None]. *)
Theorem X7_all_succeed_on_a_sound_engine
    (has_internal_path : string -> bool) (repr : string -> string) (eng : engine)
    (d : DestroyArgs) (plan : DestroyPlan) :
  (forall history c, eng history c = None) ->
  validate_and_parse_destroy_args has_internal_path repr d = Ok plan ->
  exists res calls,
    service_destroy_impl repr eng has_internal_path d = Returned (res, calls) /\
    forall k v, In (k, v) res -> v = None.
Proof.
  intros Hok Hv. unfold service_destroy_impl. rewrite Hv.
  unfold destroy_impl, __destroy_fs_or_vols, __destroy_snapshots. cbn [destroy_args].
  destruct (for_each_steps (destroy_fs_or_vol repr eng)
              (fun s i s' => results s' = dict_set i None (results s) /\
                             destroy_args s' = destroy_args s)
              (fun s i => ltac:(unfold destroy_fs_or_vol; rewrite !Hok; eauto))
              (sorted_reverse (fs_or_vols plan))
              {| results := []; destroy_args := plan; log := [] |})
    as (st1 & -> & S1).
  assert (Ha : destroy_args st1 = plan).
  { clear - S1. remember {| results := []; destroy_args := plan; log := [] |} as st0.
    assert (H0 : destroy_args st0 = plan) by (subst; reflexivity). clear Heqst0.
    induction S1 as [|s i s1 l s2 [_ Hi] _ IH]; [assumption|]. apply IH. congruence. }
  destruct (for_each_steps (destroy_channel_program eng)
              (fun s i s' => results s' = dict_set (ca_path i) None (results s))
              (fun s i => ltac:(unfold destroy_channel_program; rewrite Hok; eauto))
              (channel_programs (snapshots (destroy_args st1)))
              (destroy_singular eng st1))
    as (st2 & -> & S2).
  eexists. eexists. split; [reflexivity|].
  apply (steps_all_none ca_path _ _ _ _ (fun _ _ _ H => H) S2).
  unfold destroy_singular.
  assert (H1 : forall k v, In (k, v) (results st1) -> v = None).
  { apply (steps_all_none (fun i => i) _ _ _ _ (fun _ _ _ H => proj1 H) S1).
    intros k v []. }
  destruct (singular (snapshots (destroy_args st1))); [assumption|].
  rewrite Hok. unfold record_all. cbn [results]. now apply update_all_none.
Qed.

Lemma X7_witness :
  let d := request ["tank/x"; "tank/y@*"; "tank/z@daily"] false in
  exists plan res calls,
    validate_and_parse_destroy_args no_internal_path quote d = Ok plan /\
    service_destroy_impl quote engine_ok no_internal_path d = Returned (res, calls) /\
    forall k v, In (k, v) res -> v = None.
Proof.
  intros d. eexists.
  assert (Hv : validate_and_parse_destroy_args no_internal_path quote d = Ok _)
    by reflexivity.
  destruct (X7_all_succeed_on_a_sound_engine no_internal_path quote engine_ok d _
              (fun _ _ => eq_refl) Hv) as (res & calls & H).
  exists res, calls. split; [exact Hv | exact H].
Defined.

(** ** The order of processing does not depend on the order of the request *)

Lemma descending_perm_eq (l1 l2 : list string) :
  descending l1 -> descending l2 -> Permutation l1 l2 -> l1 = l2.
Proof.
  revert l2. induction l1 as [|x l1 IH]; intros l2 H1 H2 Hp.
  - apply Permutation_nil in Hp. now subst.
  - destruct l2 as [|y l2]; [apply Permutation_sym, Permutation_nil in Hp; discriminate|].
    inversion H1 as [|? ? H1' Hx]; subst. inversion H2 as [|? ? H2' Hy]; subst.
    rewrite Forall_forall in Hx, Hy.
    assert (Hxy : x = y).
    { assert (Hin1 : In x (y :: l2)) by (eapply Permutation_in; [exact Hp | now left]).
      assert (Hin2 : In y (x :: l1))
        by (eapply Permutation_in; [symmetry; exact Hp | now left]).
      destruct Hin1 as [|Hin1]; [congruence|].
      destruct Hin2 as [|Hin2]; [congruence|].
      apply String.leb_antisym; auto. }
    subst y. f_equal. apply IH; auto. now apply Permutation_cons_inv in Hp.
Qed.

Lemma sorted_reverse_perm_eq (l1 l2 : list string) :
  Permutation l1 l2 -> sorted_reverse l1 = sorted_reverse l2.
Proof.
  intros Hp. apply descending_perm_eq; try apply sorted_reverse_descending.
  rewrite <- (sorted_reverse_perm l1), <- (sorted_reverse_perm l2). exact Hp.
Qed.

(** X8. The order in which the datasets and volumes are processed does
    not depend on the order in which the request lists them: two plans
    whose datasets and volumes are the same up to their order have them
    opened in the same order, whatever the engines answer. *)
Theorem X8_processing_order_is_canonical
    (repr : string -> string) (eng1 eng2 : engine) (plan1 plan2 : DestroyPlan) :
  zfs_engine eng1 -> zfs_engine eng2 ->
  Permutation (fs_or_vols plan1) (fs_or_vols plan2) ->
  exists st1 st2,
    __destroy_fs_or_vols repr eng1 (initial plan1) = Returned st1 /\
    __destroy_fs_or_vols repr eng2 (initial plan2) = Returned st2 /\
    opened (log st1) = opened (log st2).
Proof.
  intros H1 H2 Hp.
  destruct (destroy_fs_or_vols_order repr eng1 H1 plan1) as (st1 & R1 & O1 & _).
  destruct (destroy_fs_or_vols_order repr eng2 H2 plan2) as (st2 & R2 & O2 & _).
  exists st1, st2. split; [assumption|]. split; [assumption|].
  rewrite O1, O2. now apply sorted_reverse_perm_eq.
Qed.

Lemma X8_witness :
  let plan l := {| data := request l false;
                   fs_or_vols := l;
                   snapshots := {| singular := []; channel_programs := [] |} |} in
  exists st1 st2,
    __destroy_fs_or_vols quote engine_ok (initial (plan ["tank/a"; "tank/b/c"; "tank/b"]))
      = Returned st1 /\
    __destroy_fs_or_vols quote engine_failing
      (initial (plan ["tank/b"; "tank/a"; "tank/b/c"])) = Returned st2 /\
    opened (log st1) = opened (log st2).
Proof.
  intros plan.
  apply (X8_processing_order_is_canonical quote engine_ok engine_failing
           (plan ["tank/a"; "tank/b/c"; "tank/b"]) (plan ["tank/b"; "tank/a"; "tank/b/c"])).
  - exact engine_ok_zfs.
  - exact engine_failing_zfs.
  - simpl. apply Permutation_sym, Permutation_cons_app with (l1 := [_; _]).
    apply Permutation_refl.
Defined.

(** ** Query validation, both ways *)

(** X9. The arguments of a query pass validation exactly when no
    requested path holds an [@] and, if [get_children] is set, no two of
    the requested paths overlap; the engine is then queried once, with the
    merged arguments, and its records are returned nested when
    [nest_results] is set and as they are otherwise. *)
Theorem X9_query_validation_iff
    (base : QueryArgs) (engine_query : QueryArgs -> result (list resource))
    (d : QueryData) :
  let final := merge base d in
  let c := query_call (q_paths final) (q_get_children final) (q_get_snapshots final) in
  (validate_query_args final = Ok tt <->
     (forall p, In p (q_paths final) -> PyStr.contains "@" p = false) /\
     (q_get_children final = true ->
      ~ exists p q, In p (q_paths final) /\ In q (q_paths final) /\ overlaps p q)) /\
  (validate_query_args final = Ok tt ->
   forall flat, engine_query final = Ok flat ->
     service_query_impl base engine_query (Some d) =
       Returned (if q_nest_results final then nest_paths flat else flat, [c])) /\
  (validate_query_args final = Ok tt ->
   forall e, engine_query final = Raise e ->
     service_query_impl base engine_query (Some d) = Raised e [c]).
Proof.
  intros final c. split; [|split].
  - unfold validate_query_args.
    destruct (check_no_snapshot_spec (q_paths final)) as [[Hok Hall]|[(p & Hp & Hc) Hr]].
    + rewrite Hok. cbn [bind]. split.
      * intros H. split; [assumption|]. intros Hg.
        apply group_paths_by_parents_nil. rewrite Hg in H.
        destruct (group_paths_by_parents (q_paths final)); [reflexivity | discriminate].
      * intros [_ H]. destruct (q_get_children final); [|reflexivity].
        specialize (H eq_refl). apply group_paths_by_parents_nil in H. now rewrite H.
    + rewrite Hr. cbn [bind]. split; [discriminate|].
      intros [H _]. rewrite (H p Hp) in Hc. discriminate.
  - intros Hv flat Hq. unfold service_query_impl. fold final. rewrite Hv, Hq.
    now destruct (q_nest_results final).
  - intros Hv e Hq. unfold service_query_impl. fold final. now rewrite Hv, Hq.
Qed.

(** ** The grouping *)

Lemma group_fold_keys (paths l : list string) (acc : dict (list string)) :
  (NoDup (dict_keys acc) -> NoDup (dict_keys (fold_left (group_step paths) l acc))) /\
  (forall k, In k (dict_keys acc) ->
     In k (dict_keys (fold_left (group_step paths) l acc))) /\
  (forall k, In k l -> filter (relative_subpath k) paths <> [] ->
     In k (dict_keys (fold_left (group_step paths) l acc))).
Proof.
  revert acc. induction l as [|x l IH]; intros acc; simpl.
  - repeat split; auto. intros k [].
  - destruct (IH (group_step paths acc x)) as (IHn & IHm & IHk).
    assert (Hstep : (NoDup (dict_keys acc) -> NoDup (dict_keys (group_step paths acc x))) /\
                    (forall k, In k (dict_keys acc) ->
                       In k (dict_keys (group_step paths acc x))) /\
                    (filter (relative_subpath x) paths <> [] ->
                       In x (dict_keys (group_step paths acc x)))).
    { unfold group_step. destruct (filter (relative_subpath x) paths).
      - repeat split; auto. congruence.
      - repeat split.
        + apply dict_keys_set_NoDup.
        + intros k. apply dict_keys_set_mono.
        + intros _. apply dict_keys_set_in. }
    destruct Hstep as (Sn & Sm & Sk). repeat split; auto.
    intros k [<-|Hk] Hf; auto.
Qed.

(** X10. The grouping has one item for each path of the list under which
    another path of the list lies, and each such path once; the item of a
    path holds all the paths of the list that lie under it, and never the
    path itself. *)
Theorem X10_grouping_invariants (ps : list string) :
  NoDup (dict_keys (group_paths_by_parents ps)) /\
  (forall k, In k (dict_keys (group_paths_by_parents ps)) <->
     In k ps /\ exists q, In q ps /\ overlaps k q) /\
  (forall k v, In (k, v) (group_paths_by_parents ps) ->
     dict_get k (group_paths_by_parents ps) = Some v /\
     ~ In k v /\
     forall q, In q v <-> In q ps /\ overlaps k q).
Proof.
  destruct (group_fold_keys ps ps []) as (Hn & _ & Hk).
  fold (group_paths_by_parents ps) in Hn, Hk.
  specialize (Hn (NoDup_nil _)).
  split; [assumption|]. split.
  - intros k. split.
    + intros Hin. apply in_map_iff in Hin. destruct Hin as ([k' v] & <- & Hin).
      apply group_paths_by_parents_In in Hin. destruct Hin as (Hk' & Hv & Hne & Hq).
      split; [assumption|]. destruct v as [|q v]; [congruence|].
      exists q. apply Hq. now left.
    + intros (Hin & q & Hq & Ho). apply Hk; [assumption|].
      intros Hf. apply relative_subpath_spec in Ho.
      assert (Hin' : In q (filter (relative_subpath k) ps)) by (apply filter_In; auto).
      rewrite Hf in Hin'. destruct Hin'.
  - intros k v Hin. pose proof (group_paths_by_parents_In _ _ _ Hin) as (_ & _ & _ & Hq).
    split; [|split; [|assumption]].
    + clear - Hn Hin. induction (group_paths_by_parents ps) as [|[k' v'] g IH];
        [destruct Hin|]. simpl in *. inversion Hn as [|? ? Hnot Hn']; subst.
      destruct Hin as [H|H].
      * injection H as -> ->. now rewrite String.eqb_refl.
      * destruct (String.eqb_spec k' k) as [->|Hne]; [|auto].
        exfalso. apply Hnot. apply in_map_iff. exists (k, v). auto.
    + intros Hkv. apply Hq in Hkv. destruct Hkv as [_ [_ Hne]]. congruence.
Qed.

(** ** The public method and the protected paths *)

Lemma validated_well_formed
    (has_internal_path : string -> bool) (repr : string -> string)
    (d : DestroyArgs) (plan : DestroyPlan) :
  validate_and_parse_destroy_args has_internal_path repr d = Ok plan ->
  Forall (well_formed has_internal_path d) (paths d).
Proof.
  intros Hv. destruct (validate_inv _ _ _ _ Hv) as (st & _ & Hc & _).
  exact (classify_paths_well_formed _ _ _ _ _ _ _ Hc).
Qed.

(** X11. Through the public [destroy], a protected path is never
    destroyed: whatever the caller's dictionary holds, its key
    [allow_destroy_internal_paths] included, a request that names a path
    for which [has_internal_path] holds raises before the engine is asked
    anything. *)
Theorem X11_public_destroy_refuses_protected_paths
    (has_internal_path : string -> bool) (repr : string -> string) (eng : engine)
    (base : DestroyArgs) (d : option DestroyData) (p : string) :
  In p (paths (destroy_final base d false)) ->
  has_internal_path p = true ->
  allow_destroy_internal_paths (destroy_final base d false) = false /\
  exists e, ZFSResourceService_destroy repr eng has_internal_path base d = Raised e [].
Proof.
  intros Hin Hp.
  assert (Ha : allow_destroy_internal_paths (destroy_final base d false) = false)
    by (destruct d; reflexivity).
  split; [assumption|].
  unfold ZFSResourceService_destroy, ZFSResourceService_destroy_impl, service_destroy_impl.
  destruct (validate_and_parse_destroy_args has_internal_path repr
              (destroy_final base d false)) as [plan|e] eqn:Hv; [|eauto].
  exfalso. pose proof (validated_well_formed _ _ _ _ Hv) as Hwf.
  rewrite Forall_forall in Hwf. destruct (Hwf p Hin) as (_ & _ & _ & [H|H] & _); congruence.
Qed.

Lemma X11_witness :
  let hip := String.eqb "tank/.system" in
  let d := Some {| dd_paths := Some ["tank/a"; "tank/.system"];
                   dd_recursive := None;
                   dd_force := None;
                   dd_defer := None;
                   dd_allow_destroy_internal_paths := Some true |} in
  allow_destroy_internal_paths (destroy_final (request [] false) d false) = false /\
  exists e, ZFSResourceService_destroy quote engine_ok hip (request [] false) d = Raised e [].
Proof.
  intros hip d.
  apply (X11_public_destroy_refuses_protected_paths hip quote engine_ok
           (request [] false) d "tank/.system").
  - simpl. auto.
  - reflexivity.
Defined.

(** ** The roots of the nested result *)

Lemma node_at_name (fuel : nat) (flat : list resource) (edges : list (nat * nat)) (k : nat) :
  name (node_at fuel flat edges k) = name_at flat k /\
  pool (node_at fuel flat edges k) = pool (nth k flat (Resource "" "" [])).
Proof. destruct fuel; split; reflexivity. Qed.

Lemma name_at_middle (pre rest : list resource) (item : resource) :
  name_at (pre ++ item :: rest) (length pre) = name item.
Proof. unfold name_at. now rewrite nth_middle. Qed.

Lemma dict_get_set_some {V} (k x : string) (v : V) (d : dict V) :
  dict_get x (dict_set k v d) <> None <-> x = k \/ dict_get x d <> None.
Proof.
  destruct (String.eqb_spec x k) as [->|Hne].
  - rewrite dict_get_set_same. split; [auto | discriminate].
  - rewrite dict_get_set_other by assumption. tauto.
Qed.

(** The first pass: the pool roots, in the order of the list, and an
    index of all the names. *)
Lemma index_pass_spec (rest pre : list resource) (node_map : dict nat) (roots : list nat) :
  map (name_at (pre ++ rest)) (snd (index_pass rest (length pre) node_map roots)) =
    map (name_at (pre ++ rest)) roots ++ map name (filter is_pool_root rest) /\
  (forall x, dict_get x (fst (index_pass rest (length pre) node_map roots)) <> None <->
             dict_get x node_map <> None \/ In x (map name rest)).
Proof.
  revert pre node_map roots. induction rest as [|item rest IH]; intros pre node_map roots.
  - simpl. rewrite !app_nil_r. split; [reflexivity | tauto].
  - cbn [index_pass filter]. unfold is_pool_root at 1.
    assert (Hlen : S (length pre) = length (pre ++ [item]))
      by (rewrite length_app; simpl; lia).
    assert (Happ : pre ++ item :: rest = (pre ++ [item]) ++ rest)
      by (rewrite <- app_assoc; reflexivity).
    destruct (String.eqb (name item) (pool item)); rewrite Hlen, Happ.
    + destruct (IH (pre ++ [item]) (dict_set (name item) (length pre) node_map)
                  (roots ++ [length pre])) as [Hr Hm].
      split.
      * rewrite Hr, map_app, <- app_assoc. cbn [map app].
        rewrite <- Happ, name_at_middle. reflexivity.
      * intros x. rewrite Hm, dict_get_set_some. simpl. intuition.
    + destruct (IH (pre ++ [item]) (dict_set (name item) (length pre) node_map) roots)
        as [Hr Hm].
      split; [exact Hr|].
      intros x. rewrite Hm, dict_get_set_some. simpl. intuition.
Qed.

(** The inner loop finds no parent exactly when none of the parents is
    indexed. *)
Lemma nearest_parent_None (node_map : dict nat) (names : list string)
    (parents : list Pathlib.path) :
  (forall x, dict_get x node_map <> None <-> In x names) ->
  (nearest_parent node_map parents = None <->
   forallb (fun parent => negb (PyStr.mem (Pathlib.as_posix parent) names)) parents = true).
Proof.
  intros Hm. induction parents as [|parent rest IH]; simpl; [tauto|].
  destruct (dict_get (Pathlib.as_posix parent) node_map) as [j|] eqn:E.
  - assert (Hin : In (Pathlib.as_posix parent) names) by (apply Hm; congruence).
    apply mem_In in Hin. rewrite Hin. simpl. split; discriminate.
  - assert (Hnot : PyStr.mem (Pathlib.as_posix parent) names = false).
    { destruct (PyStr.mem _ names) eqn:Em; [|reflexivity].
      apply mem_In, Hm in Em. congruence. }
    rewrite Hnot. simpl. exact IH.
Qed.

(** The second pass adds to the roots the records that have no parent in
    the list, in the order of the list. *)
Lemma link_pass_spec (flat rest pre : list resource) (node_map : dict nat)
    (roots : list nat) (edges : list (nat * nat)) :
  (forall x, dict_get x node_map <> None <-> In x (map name flat)) ->
  map (name_at (pre ++ rest)) (fst (link_pass rest (length pre) node_map roots edges)) =
    map (name_at (pre ++ rest)) roots ++ map name (filter (is_orphan flat) rest).
Proof.
  intros Hm. revert pre roots edges.
  induction rest as [|item rest IH]; intros pre roots edges.
  - simpl. now rewrite !app_nil_r.
  - cbn [link_pass filter]. unfold is_orphan at 1, is_pool_root, no_parent_in.
    assert (Hlen : S (length pre) = length (pre ++ [item]))
      by (rewrite length_app; simpl; lia).
    assert (Happ : pre ++ item :: rest = (pre ++ [item]) ++ rest)
      by (rewrite <- app_assoc; reflexivity).
    destruct (String.eqb (name item) (pool item)); cbn [negb andb].
    + rewrite Hlen, Happ. apply IH.
    + pose proof (nearest_parent_None node_map (map name flat)
                    (Pathlib.parents (Pathlib.parse (name item))) Hm) as Hn.
      destruct (nearest_parent node_map _) as [j|].
      * destruct (forallb _ _); [destruct Hn as [_ Hn]; discriminate (Hn eq_refl)|].
        rewrite Hlen, Happ. apply IH.
      * rewrite (proj1 Hn eq_refl). rewrite Hlen, Happ, IH, map_app, <- app_assoc.
        cbn [map app]. rewrite <- Happ, name_at_middle. reflexivity.
Qed.

(** X12. The roots that [nest_paths] returns are, by their names, first
    the records that are the root of their pool, then the other records
    none of whose parents is the name of a record of the list, both in
    the order of the flat list. *)
Theorem X12_roots_of_the_nested_result (flat_list : list resource) :
  map name (nest_paths flat_list) =
    map name (filter is_pool_root flat_list) ++
    map name (filter (is_orphan flat_list) flat_list).
Proof.
  unfold nest_paths.
  destruct (index_pass_spec flat_list [] [] []) as [Hr Hm].
  cbn [length app map] in Hr, Hm.
  destruct (index_pass flat_list 0 [] []) as [node_map roots0]. cbn [fst snd] in Hr, Hm.
  assert (Hm' : forall x, dict_get x node_map <> None <-> In x (map name flat_list)).
  { intros x. rewrite Hm. simpl. intuition. }
  pose proof (link_pass_spec flat_list flat_list [] node_map roots0 [] Hm') as Hl.
  cbn [length app] in Hl.
  destruct (link_pass flat_list 0 node_map roots0 []) as [roots edges]. cbn [fst] in Hl.
  rewrite map_map.
  rewrite (map_ext _ (name_at flat_list)
             (fun k => proj1 (node_at_name (length flat_list) flat_list edges k))).
  now rewrite Hl, Hr.
Qed.

(** * The order of the request and the values of the result *)

(** ** The first overlapping path *)

Section GroupingHead.

Variable paths : list string.

(** Once the grouping has a first item, later iterations leave it first:
    a path met again is given the same list of subpaths. *)
Lemma group_fold_head (l : list string) (k : string) (g : dict (list string)) :
  exists g',
    fold_left (group_step paths) l ((k, filter (relative_subpath k) paths) :: g) =
      (k, filter (relative_subpath k) paths) :: g'.
Proof.
  revert g. induction l as [|x l IH]; intros g; simpl; [eauto|].
  unfold group_step at 2.
  destruct (filter (relative_subpath x) paths) as [|y ys] eqn:E; [apply IH|].
  cbn [dict_set]. destruct (String.eqb_spec k x) as [->|Hne].
  - rewrite <- E. apply IH.
  - apply IH.
Qed.

(** The first item of the grouping is the first path that has another
    path under it. *)
Lemma group_fold_first (pre post : list string) (k : string) :
  (forall p, In p pre -> filter (relative_subpath p) paths = []) ->
  filter (relative_subpath k) paths <> [] ->
  exists g,
    fold_left (group_step paths) (pre ++ k :: post) [] =
      (k, filter (relative_subpath k) paths) :: g.
Proof.
  intros Hpre Hk. rewrite fold_left_app.
  assert (Hnil : fold_left (group_step paths) pre [] = []).
  { apply group_fold_nil. auto. }
  rewrite Hnil. cbn [fold_left]. unfold group_step at 2.
  destruct (filter (relative_subpath k) paths) as [|y ys] eqn:E; [congruence|].
  cbn [dict_set]. rewrite <- E. apply group_fold_head.
Qed.

End GroupingHead.

(** A list in which some path has another under it splits at the first
    such path. *)
Lemma first_overlapping (fs l : list string) :
  (exists p, In p l /\ filter (relative_subpath p) fs <> []) ->
  exists pre k post,
    l = pre ++ k :: post /\
    (forall p, In p pre -> filter (relative_subpath p) fs = []) /\
    filter (relative_subpath k) fs <> [].
Proof.
  induction l as [|x l IH]; intros (p & Hp & Hne); [destruct Hp|].
  destruct (filter (relative_subpath x) fs) as [|y ys] eqn:E.
  - destruct IH as (pre & k & post & -> & Hpre & Hk).
    { destruct Hp as [<-|Hp]; [congruence | eauto]. }
    exists (x :: pre), k, post. split; [reflexivity|]. split; [|assumption].
    intros q [<-|Hq]; auto.
  - exists [], x, l. split; [reflexivity|]. split; [intros q []|].
    rewrite E. discriminate.
Qed.

Lemma overlap_raises_first (d : DestroyArgs) (fs : list string) :
  recursive d = true ->
  (exists p q, In p fs /\ In q fs /\ overlaps p q) ->
  exists pre k post,
    fs = pre ++ k :: post /\
    (forall p, In p pre -> ~ exists q, In q fs /\ overlaps p q) /\
    (exists q, In q fs /\ overlaps k q) /\
    check_overlap d fs =
      Raise (ValidationError schema
               (overlap_err ++ " (" ++ k ++ " overlaps with "
                  ++ PyStr.join ", " (filter (relative_subpath k) fs) ++ ")")).
Proof.
  intros Hrec (p & q & Hp & Hq & Ho).
  destruct (first_overlapping fs fs) as (pre & k & post & Hfs & Hpre & Hk).
  { exists p. split; [assumption|]. intros E.
    assert (Hin : In q (filter (relative_subpath p) fs))
      by (apply filter_In; split; [assumption | now apply relative_subpath_spec]).
    rewrite E in Hin. destruct Hin. }
  exists pre, k, post. split; [assumption|]. split; [|split].
  - intros p' Hp' (q' & Hq' & Ho').
    assert (Hin : In q' (filter (relative_subpath p') fs))
      by (apply filter_In; split; [assumption | now apply relative_subpath_spec]).
    rewrite (Hpre p' Hp') in Hin. destruct Hin.
  - destruct (filter (relative_subpath k) fs) as [|y ys] eqn:E; [congruence|].
    exists y. assert (Hin : In y (filter (relative_subpath k) fs)) by (rewrite E; now left).
    apply filter_In in Hin. destruct Hin as [Hy Hr]. split; [assumption|].
    now apply relative_subpath_spec.
  - unfold check_overlap, group_paths_by_parents. rewrite Hrec.
    destruct (group_fold_first fs pre post k Hpre Hk) as (g & Hg).
    rewrite Hfs at 2. rewrite Hg. reflexivity.
Qed.

(** C4, as stated, fails: [tank/a] and [tank//a] have the same
    components, so neither is a strict ancestor of the other, and yet the
    grouping is not empty and validation raises. *)
Lemma C4_counterexample :
  let d := request ["tank/a"; "tank//a"] true in
  classify_paths no_internal_path quote d (paths d) [] [] = Ok (paths d, []) /\
  no_strict_pair (paths d) /\
  group_paths_by_parents (paths d) =
    [("tank/a", ["tank//a"]); ("tank//a", ["tank/a"])] /\
  validate_and_parse_destroy_args no_internal_path quote d =
    Raise (ValidationError schema
             "Overlapping paths are not allowed when recursive is true (tank/a overlaps with tank//a)").
Proof.
  repeat split.
  intros (p & q & Hp & Hq & _ & Hne). apply Hne.
  simpl in Hp, Hq.
  destruct Hp as [<-|[<-|[]]]; destruct Hq as [<-|[<-|[]]]; reflexivity.
Qed.

(** C4, amended. For every destroy request with [recursive] true whose
    paths are all accepted, the datasets and volumes being the requested
    paths without [@] in the order of the request: if they hold two
    different strings such that the components of one, as [pathlib] reads
    them (empty and [.] segments dropped), are the first components of
    the other - every strict ancestor and descendant are such a pair, and
    so are two spellings of one path - then a [ValidationError] is raised
    before any engine call, which names the first path, in the order of
    the request, that has such a path under it, and all the paths under
    it, in the order of the request; if there is no such pair, the
    grouping is empty and validation returns. *)
Theorem C4_overlap_validation
    (has_internal_path : string -> bool) (repr : string -> string) (eng : engine)
    (d : DestroyArgs) (fs st : list string) :
  recursive d = true ->
  paths d <> [] ->
  classify_paths has_internal_path repr d (paths d) [] [] = Ok (fs, st) ->
  fs = filter is_fs_or_vol_path (paths d) /\
  (forall p q, strict_ancestor p q -> overlaps p q) /\
  ((exists p q, In p fs /\ In q fs /\ overlaps p q) ->
     exists pre k post v,
       fs = pre ++ k :: post /\
       (forall p, In p pre -> ~ exists q, In q fs /\ overlaps p q) /\
       v = filter (relative_subpath k) fs /\
       In k fs /\ v <> [] /\
       (forall q, In q v <-> In q fs /\ overlaps k q) /\
       service_destroy_impl repr eng has_internal_path d =
         Raised (ValidationError schema
                   (overlap_err ++ " (" ++ k ++ " overlaps with "
                      ++ PyStr.join ", " v ++ ")")) []) /\
  ((~ exists p q, In p fs /\ In q fs /\ overlaps p q) ->
     group_paths_by_parents fs = [] /\
     exists plan,
       validate_and_parse_destroy_args has_internal_path repr d = Ok plan /\
       fs_or_vols plan = fs).
Proof.
  intros Hrec Hne Hc. split; [|split; [exact strict_ancestor_overlaps|split]].
  - pose proof (classify_paths_well_formed _ _ _ _ _ _ _ Hc) as Hwf.
    rewrite (classify_paths_filter _ _ _ _ [] [] Hwf) in Hc. now injection Hc as <- _.
  - intros Hex.
    destruct (overlap_raises_first d fs Hrec Hex)
      as (pre & k & post & Hfs & Hpre & (q & Hq & Hkq) & Ho).
    exists pre, k, post, (filter (relative_subpath k) fs).
    split; [assumption|]. split; [assumption|]. split; [reflexivity|].
    split; [rewrite Hfs; apply in_or_app; right; now left|].
    split.
    { intros E.
      assert (Hin : In q (filter (relative_subpath k) fs))
        by (apply filter_In; split; [assumption | now apply relative_subpath_spec]).
      rewrite E in Hin. destruct Hin. }
    split.
    { intros q'. rewrite filter_In, relative_subpath_spec. reflexivity. }
    unfold service_destroy_impl.
    now rewrite (validate_overlap_raises _ _ d fs st _ Hc Hne Ho).
  - intros Hno. destruct (no_overlap_returns d fs Hno) as [Hg Ho].
    split; [assumption|].
    destruct (validate_returns _ _ d fs st Hne Hc Ho) as (snaps & _ & Hv).
    eexists. split; [exact Hv | reflexivity].
Qed.

Lemma C4_witness :
  let d := request ["tank/b"; "tank/a/c@s"; "tank/a"; "tank/a/c"; "tank/b/d"; "tank/a/e"] true in
  service_destroy_impl quote engine_ok no_internal_path d =
    Raised (ValidationError schema
              "Overlapping paths are not allowed when recursive is true (tank/b overlaps with tank/b/d)")
           [] /\
  exists pre k post v,
    ["tank/b"; "tank/a"; "tank/a/c"; "tank/b/d"; "tank/a/e"] = pre ++ k :: post /\
    (forall p, In p pre -> ~ exists q, In q (pre ++ k :: post) /\ overlaps p q) /\
    v = filter (relative_subpath k) (pre ++ k :: post) /\
    service_destroy_impl quote engine_ok no_internal_path d =
      Raised (ValidationError schema
                (overlap_err ++ " (" ++ k ++ " overlaps with "
                   ++ PyStr.join ", " v ++ ")")) [].
Proof.
  intros d. split; [reflexivity|].
  destruct (C4_overlap_validation no_internal_path quote engine_ok d
              ["tank/b"; "tank/a"; "tank/a/c"; "tank/b/d"; "tank/a/e"] ["tank/a/c@s"]
              eq_refl ltac:(discriminate) eq_refl) as (_ & _ & Hraise & _).
  destruct Hraise as (pre & k & post & v & Hfs & Hpre & Hv & _ & _ & _ & Hr).
  { exists "tank/a", "tank/a/c". split; [simpl; auto|]. split; [simpl; auto|].
    apply relative_subpath_spec. reflexivity. }
  exists pre, k, post, v. rewrite <- Hfs. auto.
Defined.

(** ** The value left under a key *)

Lemma for_each_app {A} (body : DestroyState -> A -> run DestroyState)
    (l1 l2 : list A) (st st1 : DestroyState) :
  for_each body st l1 = Returned st1 ->
  for_each body st (l1 ++ l2) = for_each body st1 l2.
Proof.
  revert st. induction l1 as [|i l1 IH]; intros st; simpl.
  - intros H. now injection H as ->.
  - destruct (body st i) as [st'|e c]; [apply IH | discriminate].
Qed.

(** The last element of a list that bears a given key. *)
Lemma split_last_key {A} (key : A -> string) (p : string) (l : list A) :
  In p (map key l) ->
  exists l1 i l2,
    l = l1 ++ i :: l2 /\ key i = p /\ forall j, In j l2 -> key j <> p.
Proof.
  induction l as [|x l IH]; simpl; [intros []|].
  intros H. destruct (in_dec string_dec p (map key l)) as [Hin|Hnin].
  - destruct (IH Hin) as (l1 & i & l2 & -> & Hi & Hl2).
    exists (x :: l1), i, l2. auto.
  - destruct H as [H|H]; [|contradiction].
    exists [], x, l. split; [reflexivity|]. split; [assumption|].
    intros j Hj E. apply Hnin. rewrite <- E. now apply in_map.
Qed.

(** Iterations that write other keys leave the value of a key as it is. *)
Lemma steps_get_other {A} (key : A -> string) P st (l : list A) st' (p : string) :
  sets_key key P -> steps P st l st' ->
  (forall j, In j l -> key j <> p) ->
  dict_get p (results st') = dict_get p (results st).
Proof.
  intros HP Hs. induction Hs as [st | st i st1 l st2 Hi Hs IH]; intros Hl; [reflexivity|].
  destruct (HP _ _ _ Hi) as (_ & v & Hres).
  rewrite IH by (intros j Hj; apply Hl; now right).
  rewrite Hres. apply dict_get_set_other.
  intros E. apply (Hl i); [now left | now symmetry].
Qed.

Lemma dict_get_update_other {V} (names : list string) (v : V) (d : dict V) (i : string) :
  ~ In i names ->
  dict_get i (fold_left (fun r n => dict_set n v r) names d) = dict_get i d.
Proof.
  revert d. induction names as [|n names IH]; simpl; intros d H; [reflexivity|].
  rewrite IH by tauto. apply dict_get_set_other. intros E. apply H. now left.
Qed.

Lemma destroy_singular_get_other (eng : engine) (st : DestroyState) (i : string) :
  ~ In i (singular (snapshots (destroy_args st))) ->
  dict_get i (results (destroy_singular eng st)) = dict_get i (results st).
Proof.
  unfold destroy_singular.
  destruct (singular (snapshots (destroy_args st))) as [|n names]; [reflexivity|].
  intros H. destruct (eng (log st) _); unfold record_all; cbn [results];
    now apply dict_get_update_other.
Qed.

(** The calls of a run over datasets and volumes come after those made
    before it, one [open_resource] for each entry. *)
Lemma steps_fs_or_vol_log st l st' :
  steps fs_or_vol_step st l st' ->
  exists ext, log st' = log st ++ ext /\ opened ext = l.
Proof.
  induction 1 as [st | st i st1 l st2 Hi Hs IH].
  - exists []. now rewrite app_nil_r.
  - destruct Hi as (_ & _ & e & He & Hlog).
    destruct IH as (ext & Hl & Ho).
    destruct (fs_or_vol_calls_shape _ _ _ He) as (Hoe & _).
    exists (e ++ ext). rewrite Hl, Hlog, <- app_assoc, opened_app, Hoe, Ho.
    auto.
Qed.

(** A loop run up to the last iteration that writes a given key: what
    that iteration records is what the loop leaves under the key. *)
Lemma for_each_last {A} (body : DestroyState -> A -> run DestroyState)
    (P : DestroyState -> A -> DestroyState -> Prop) (key : A -> string) :
  (forall st i, exists st', body st i = Returned st' /\ P st i st') ->
  sets_key key P ->
  forall (l1 : list A) (i : A) (l2 : list A) (st : DestroyState),
    (forall j, In j l2 -> key j <> key i) ->
    exists sta stb st',
      steps P st l1 sta /\
      body sta i = Returned stb /\
      steps P stb l2 st' /\
      for_each body st (l1 ++ i :: l2) = Returned st' /\
      dict_get (key i) (results st') = dict_get (key i) (results stb).
Proof.
  intros Hbody HP l1 i l2 st Hl2.
  destruct (for_each_steps body P Hbody l1 st) as (sta & Ha & Sa).
  destruct (Hbody sta i) as (stb & Hb & _).
  destruct (for_each_steps body P Hbody l2 stb) as (st' & Hc & Sc).
  exists sta, stb, st'. split; [assumption|]. split; [assumption|].
  split; [assumption|]. split.
  - rewrite (for_each_app body l1 (i :: l2) st sta Ha). simpl. now rewrite Hb.
  - apply (steps_get_other key P stb l2 st' (key i) HP Sc Hl2).
Qed.

Section Values.

Variable repr : string -> string.
Variable eng : engine.
Hypothesis Heng : zfs_engine eng.

(** The value the run leaves under a key is the one recorded by the last
    step run under that key: a channel program if there is one, else the
    batch of snapshots if the key is one of its members, else the
    iteration on the dataset or volume. *)
Lemma destroy_impl_values (plan : DestroyPlan) :
  exists res calls,
    destroy_impl repr eng plan = Returned (res, calls) /\
    (forall i,
       In i (fs_or_vols plan) ->
       ~ In i (singular (snapshots plan)) ->
       ~ In i (map ca_path (channel_programs (snapshots plan))) ->
       exists h ext v,
         calls = h ++ open_resource i :: ext /\
         ~ In (open_resource i) ext /\
         dict_get i res = Some v /\
         fs_or_vol_outcome repr eng (data plan) h i v) /\
    (forall i,
       In i (singular (snapshots plan)) ->
       ~ In i (map ca_path (channel_programs (snapshots plan))) ->
       exists h ext,
         calls = h ++ destroy_snapshots (singular (snapshots plan)) :: ext /\
         dict_get i res =
           Some (option_map exn_str
                   (eng h (destroy_snapshots (singular (snapshots plan)))))) /\
    (forall p,
       In p (map ca_path (channel_programs (snapshots plan))) ->
       exists l1 ca l2 h,
         channel_programs (snapshots plan) = l1 ++ ca :: l2 /\
         ca_path ca = p /\
         (forall j, In j l2 -> ca_path j <> p) /\
         calls = h ++ snapshots_call ca :: map snapshots_call l2 /\
         dict_get p res = Some (option_map exn_str (eng h (snapshots_call ca)))).
Proof.
  destruct (destroy_impl_steps repr eng Heng plan) as (st1 & st2 & H1 & S1 & Ha & S2 & Hrun).
  exists (results st2), (log st2). split; [assumption|].
  pose proof (steps_channel_program_log _ _ _ S2) as L2.
  destruct (destroy_singular_spec eng st1) as (As & _ & _ & _ & Ls).
  rewrite Ha in Ls. fold snapshots_call in L2.
  split; [|split].
  - intros i Hi Hns Hnc.
    assert (Hi' : In i (map (fun x : string => x) (sorted_reverse (fs_or_vols plan)))).
    { rewrite map_id. eapply Permutation_in; [apply sorted_reverse_perm | exact Hi]. }
    destruct (split_last_key (fun x => x) i _ Hi') as (l1 & i' & l2 & Hl & Hk & Hl2).
    cbv beta in Hk, Hl2. subst i'. rename i into i'.
    destruct (for_each_last (destroy_fs_or_vol repr eng) fs_or_vol_step (fun x => x)
                (destroy_fs_or_vol_step repr eng Heng) fs_or_vol_step_sets_key
                l1 i' l2 (initial plan) Hl2)
      as (sta & stb & st' & Sa & Hb & Sb & Hfor & Hget).
    unfold __destroy_fs_or_vols in H1. cbn [initial destroy_args] in H1.
    fold (initial plan) in H1. rewrite Hl, Hfor in H1. injection H1 as ->.
    destruct (steps_keys _ _ _ _ _ fs_or_vol_step_sets_key Sa) as (Aa & _).
    cbn [initial destroy_args] in Aa.
    destruct (destroy_fs_or_vol_cases repr eng Heng sta i') as (stb' & Hb' & Hcases).
    rewrite Hb in Hb'. injection Hb' as <-. cbv zeta in Hcases. rewrite Aa in Hcases.
    destruct (steps_fs_or_vol_log _ _ _ Sb) as (ext2 & Lb & Ob).
    assert (Hval : dict_get i' (results st2) = dict_get i' (results stb)).
    { rewrite (steps_get_other ca_path channel_program_step _ _ _ i'
                 channel_program_step_sets_key S2).
      - rewrite destroy_singular_get_other by (rewrite Ha; exact Hns). exact Hget.
      - intros j Hj E. apply Hnc. rewrite <- E. now apply in_map. }
    assert (Hrest : forall rest v,
              log stb = log sta ++ open_resource i' :: rest ->
              ~ In (open_resource i') rest ->
              dict_get i' (results stb) = Some v ->
              fs_or_vol_outcome repr eng (data plan) (log sta) i' v ->
              exists h ext v,
                log st2 = h ++ open_resource i' :: ext /\
                ~ In (open_resource i') ext /\
                dict_get i' (results st2) = Some v /\
                fs_or_vol_outcome repr eng (data plan) h i' v).
    { intros rest v Hlog Hno Hg Hout.
      exists (log sta),
        (rest ++ ext2 ++
           match singular (snapshots plan) with
           | [] => []
           | _ :: _ => [destroy_snapshots (singular (snapshots plan))]
           end ++ map snapshots_call (channel_programs (snapshots plan))), v.
      split.
      { rewrite L2, Ls, Lb, Hlog. rewrite <- !app_assoc. reflexivity. }
      split; [|split; [congruence | assumption]].
      intros Hin. apply in_app_or in Hin. destruct Hin as [Hin|Hin]; [contradiction|].
      apply in_app_or in Hin. destruct Hin as [Hin|Hin].
      { apply opened_In in Hin. rewrite Ob in Hin. apply (Hl2 i' Hin). reflexivity. }
      apply in_app_or in Hin. destruct Hin as [Hin|Hin].
      { destruct (singular (snapshots plan)); [destruct Hin|].
        destruct Hin as [Hin|[]]. discriminate. }
      apply in_map_iff in Hin. destruct Hin as (ca & Hca & _). discriminate. }
    destruct Hcases as [(code & msg & E & Hlog & Hg)
                       |[(E1 & code & msg & E2 & Hlog & Hg)|(E1 & E2 & Hlog & Hg)]].
    + eapply (Hrest []); [exact Hlog | intros [] | exact Hg |].
      left. eauto.
    + eapply (Hrest [unmount i' (force (data plan)) (recursive (data plan))]);
        [exact Hlog | intros [Hin|[]]; discriminate | exact Hg |].
      right. left. eauto.
    + eapply (Hrest [unmount i' (force (data plan)) (recursive (data plan));
                     destroy_call (data plan) i']); [exact Hlog | | exact Hg |].
      * unfold destroy_call. intros [Hin|[Hin|[]]]; [discriminate|].
        destruct (recursive (data plan)); discriminate.
      * right. right. auto.
  - intros i Hi Hnc.
    exists (log st1), (map snapshots_call (channel_programs (snapshots plan))).
    split.
    + rewrite L2, Ls. destruct (singular (snapshots plan)); [destruct Hi|].
      rewrite <- app_assoc. reflexivity.
    + rewrite (steps_get_other ca_path channel_program_step _ _ _ i
                 channel_program_step_sets_key S2).
      * pose proof (destroy_singular_capture eng st1 i) as Hc. cbv zeta in Hc.
        rewrite Ha in Hc. now apply Hc.
      * intros j Hj E. apply Hnc. rewrite <- E. now apply in_map.
  - intros p Hp.
    destruct (split_last_key ca_path p _ Hp) as (l1 & ca & l2 & Hl & Hca & Hl2).
    exists l1, ca, l2.
    assert (Hl2' : forall j, In j l2 -> ca_path j <> ca_path ca)
      by (intros j Hj; rewrite Hca; now apply Hl2).
    destruct (for_each_last (destroy_channel_program eng) channel_program_step ca_path
                (destroy_channel_program_step eng) channel_program_step_sets_key
                l1 ca l2 (destroy_singular eng st1) Hl2')
      as (sta & stb & st' & Sa & Hb & Sb & Hfor & Hget).
    unfold destroy_impl in Hrun. fold (initial plan) in Hrun. rewrite H1 in Hrun.
    unfold __destroy_snapshots in Hrun. rewrite Ha, Hl, Hfor in Hrun.
    injection Hrun as Hr Hlg.
    destruct (destroy_channel_program_capture eng sta ca) as (stb' & Hb' & Hlog & Hg).
    rewrite Hb in Hb'. injection Hb' as <-.
    pose proof (steps_channel_program_log _ _ _ Sb) as Lb. fold snapshots_call in Lb, Hlog, Hg.
    exists (log sta). split; [assumption|]. split; [assumption|]. split; [assumption|].
    split.
    + rewrite <- Hlg, Lb, Hlog, <- app_assoc. reflexivity.
    + rewrite <- Hr, <- Hca, Hget. exact Hg.
Qed.

End Values.

(** ** The keys and the values of the result *)






(** ** Totality of the executor *)

(** C7, as stated, fails twice. Only [ZFSException] is caught around
    [open_resource]: on an engine where it fails with another exception,
    the run of the validated request [["tank/a"]] raises. And an entry
    can be written again: for the validated request
    [["tank/b@s"; "tank/a"]] with [recursive] false the batch of
    snapshots holds [tank/a], so that on an engine where [tank/a] cannot
    be opened and the batch returns, the entry of [tank/a] is [None]. *)
Lemma C7_counterexample :
  (let d := request ["tank/a"] false in
   exists plan,
     validate_and_parse_destroy_args no_internal_path quote d = Ok plan /\
     destroy_impl quote engine_open_crashing plan =
       Raised (Exception "invalid argument") [open_resource "tank/a"]) /\
  (let d := request ["tank/b@s"; "tank/a"] false in
   exists plan,
     validate_and_parse_destroy_args no_internal_path quote d = Ok plan /\
     zfs_engine engine_no_dataset /\
     engine_no_dataset [] (open_resource "tank/a") =
       Some (ZFSException EZFS_NOENT "dataset does not exist") /\
     destroy_impl quote engine_no_dataset plan =
       Returned ([("tank/a", None)],
                 [open_resource "tank/a"; destroy_snapshots ["tank/a"]])).
Proof.
  split.
  - eexists. split; reflexivity.
  - eexists. split; [reflexivity|]. split; [|split; reflexivity].
    split; intros; intros h e H; simpl in H; try discriminate.
    injection H as <-. eauto.
Qed.

(** C7, amended. For every plan, on an engine whose [open_resource] and
    [unmount] fail by [ZFSException] only, the run returns: every dataset
    or volume is opened, the batch of snapshots is destroyed in one call
    when there is one, every channel program is run, and each of them has
    its entry in the results, whatever failed before it. A step records
    what happened to it: the resource that does not exist, the unmount
    refused because the resource is busy (with a hint at its children
    when the request is not recursive), any other failure by its message,
    and [None] on success. In the mapping returned, a key holds what the
    last step run under it recorded: the last channel program of that
    path if there is one, else the batch if the key is one of its
    members, else the last iteration on the dataset or volume. *)
Theorem C7_execution_total
    (repr : string -> string) (eng : engine) (plan : DestroyPlan) :
  zfs_engine eng ->
  (exists res calls,
     destroy_impl repr eng plan = Returned (res, calls) /\
     (forall i, In i (fs_or_vols plan) ->
        In (open_resource i) calls /\ In i (dict_keys res)) /\
     (singular (snapshots plan) <> [] ->
        In (destroy_snapshots (singular (snapshots plan))) calls) /\
     (forall i, In i (singular (snapshots plan)) -> In i (dict_keys res)) /\
     (forall ca, In ca (channel_programs (snapshots plan)) ->
        In (run_channel_program (ca_pool_name ca) DESTROY_SNAPSHOTS
              (ca_script_arguments_dict ca) (ca_readonly ca)) calls /\
        In (ca_path ca) (dict_keys res)) /\
     (forall i,
        In i (fs_or_vols plan) ->
        ~ In i (singular (snapshots plan)) ->
        ~ In i (map ca_path (channel_programs (snapshots plan))) ->
        exists h ext v,
          calls = h ++ open_resource i :: ext /\
          ~ In (open_resource i) ext /\
          dict_get i res = Some v /\
          fs_or_vol_outcome repr eng (data plan) h i v) /\
     (forall i,
        In i (singular (snapshots plan)) ->
        ~ In i (map ca_path (channel_programs (snapshots plan))) ->
        exists h ext,
          calls = h ++ destroy_snapshots (singular (snapshots plan)) :: ext /\
          dict_get i res =
            Some (option_map exn_str
                    (eng h (destroy_snapshots (singular (snapshots plan)))))) /\
     (forall p,
        In p (map ca_path (channel_programs (snapshots plan))) ->
        exists l1 ca l2 h,
          channel_programs (snapshots plan) = l1 ++ ca :: l2 /\
          ca_path ca = p /\
          (forall j, In j l2 -> ca_path j <> p) /\
          calls = h ++ snapshots_call ca :: map snapshots_call l2 /\
          dict_get p res = Some (option_map exn_str (eng h (snapshots_call ca))))) /\
  (forall st i,
     let args := data (destroy_args st) in
     let o := open_resource i in
     let u := unmount i (force args) (recursive args) in
     let c := destroy_call args i in
     exists st',
       destroy_fs_or_vol repr eng st i = Returned st' /\
       ((exists code msg,
           eng (log st) o = Some (ZFSException code msg) /\
           dict_get i (results st') =
             Some (Some (if is_ZFSError_NOENT code
                         then (repr i ++ " does not exist")%string
                         else msg))) \/
        (eng (log st) o = None /\
         exists code msg,
           eng (log st ++ [o]) u = Some (ZFSException code msg) /\
           dict_get i (results st') =
             Some (Some (if is_ZFSError_BUSY code && negb (recursive args)
                         then ("Failed to unmount, does " ++ repr i
                                 ++ " have children?")%string
                         else msg))) \/
        (eng (log st) o = None /\
         eng (log st ++ [o]) u = None /\
         dict_get i (results st') =
           Some (option_map exn_str (eng (log st ++ [o; u]) c))))) /\
  (forall st i,
     In i (singular (snapshots (destroy_args st))) ->
     dict_get i (results (destroy_singular eng st)) =
       Some (option_map exn_str
               (eng (log st)
                  (destroy_snapshots (singular (snapshots (destroy_args st))))))) /\
  (forall st ca,
     exists st',
       destroy_channel_program eng st ca = Returned st' /\
       dict_get (ca_path ca) (results st') =
         Some (option_map exn_str
                 (eng (log st)
                    (run_channel_program (ca_pool_name ca) DESTROY_SNAPSHOTS
                       (ca_script_arguments_dict ca) (ca_readonly ca))))).
Proof.
  intros Heng. split; [|split; [|split]].
  - destruct (destroy_impl_complete repr eng Heng plan)
      as (res & calls & Hrun & _ & H1 & H2 & H3 & H4).
    destruct (destroy_impl_values repr eng Heng plan)
      as (res' & calls' & Hrun' & Vfs & Vsg & Vcp).
    rewrite Hrun in Hrun'. injection Hrun' as <- <-.
    exists res, calls. split; [assumption|].
    split; [intros i Hi; split; now apply H1|].
    split; [assumption|]. split; [assumption|].
    split; [intros ca Hca; split; now apply H4|].
    split; [assumption|]. split; assumption.
  - intros st i. cbv zeta.
    destruct (destroy_fs_or_vol_cases repr eng Heng st i) as (st' & Hrun & Hcases).
    exists st'. split; [assumption|]. cbv zeta in Hcases.
    destruct Hcases as [(code & msg & E & _ & Hg)
                       |[(E1 & code & msg & E2 & _ & Hg)|(E1 & E2 & _ & Hg)]];
      eauto 10.
  - intros st i. apply destroy_singular_capture.
  - intros st ca.
    destruct (destroy_channel_program_capture eng st ca) as (st' & Hrun & _ & Hg).
    eauto.
Qed.

Lemma C7_witness :
  let plan := {| data := request ["tank/a"; "tank/b@*"] false;
                 fs_or_vols := ["tank/a"];
                 snapshots :=
                   {| singular := [];
                      channel_programs :=
                        [{| ca_path := "tank/b@*";
                            ca_pool_name := "tank";
                            ca_readonly := false;
                            ca_script_arguments_dict :=
                              {| sa_recursive := false;
                                 sa_target := "tank/b";
                                 sa_defer := false;
                                 sa_pattern := None |} |}] |} |} in
  exists res calls,
    destroy_impl quote engine_failing plan = Returned (res, calls) /\
    res = [("tank/a", Some "'tank/a' does not exist");
           ("tank/b@*", Some "channel program failed")] /\
    (forall i, In i (fs_or_vols plan) ->
       In (open_resource i) calls /\ In i (dict_keys res)) /\
    (singular (snapshots plan) <> [] ->
       In (destroy_snapshots (singular (snapshots plan))) calls) /\
    (forall i, In i (singular (snapshots plan)) -> In i (dict_keys res)) /\
    (forall ca, In ca (channel_programs (snapshots plan)) ->
       In (run_channel_program (ca_pool_name ca) DESTROY_SNAPSHOTS
             (ca_script_arguments_dict ca) (ca_readonly ca)) calls /\
       In (ca_path ca) (dict_keys res)).
Proof.
  intros plan.
  destruct (C7_execution_total quote engine_failing plan engine_failing_zfs)
    as ((res & calls & Hrun & H1 & H2 & H3 & H4 & _) & _).
  exists res, calls. split; [assumption|]. split; [|auto].
  vm_compute in Hrun. now injection Hrun as <- _.
Defined.
